(** * BX0: a shallow embedding of the interpreter and of its PLY grammar

    The development follows the two source files:
    - [bx0_interpreter.py]: [truncate_number], [evaluate_expression],
      [process_stmt] and the statement loop of [main];
    - [parser.py]: the class [Node], the precedence table, the grammar
      of the [p_*] functions and their semantic actions, run by an
      LALR(1) automaton built the way yacc builds it.

    Python integers are unbounded and are modelled by [Z]; exhaustion of
    memory (a shift by an astronomically large count) is not modelled.

    [parser.py] is a grammar for PLY's yacc.  Its embedding keeps the
    grammar, the precedence table and the actions as data and builds the
    parser from them as yacc does: the LALR(1) automaton, shift/reduce
    conflicts resolved by precedence and associativity, states with a
    single reduction reducing by default, and [p_error] called on the
    first token that has no action. *)

From Stdlib Require Import ZArith List String Ascii Bool Lia.
From stdpp Require Import base decidable countable gmap strings pretty.

Local Open Scope string_scope.
Local Open Scope list_scope.
Local Open Scope Z_scope.
Import ListNotations.

(** ** Python values and the class [Node] *)

(** The values that reach the parser and the interpreter: [None], strings
    (lexemes, operator symbols), integers and [Node] objects.  A [Node]
    has an [opcode], a [value] and a tuple of [kids]; as in the source,
    [value] and every kid are arbitrary objects. *)
Inductive pyval : Type :=
  | PNone : pyval
  | PStr (s : string) : pyval
  | PInt (z : Z) : pyval
  | PNode (n : Node) : pyval
with Node : Type :=
  | mkNode (opcode : string) (value : pyval) (kids : list pyval) : Node.

Definition opcode (n : Node) : string := let 'mkNode o _ _ := n in o.
Definition value (n : Node) : pyval := let 'mkNode _ v _ := n in v.
Definition kids (n : Node) : list pyval := let 'mkNode _ _ k := n in k.

(** The hashable values: [Node] defines [__eq__] without [__hash__], so a
    [Node] cannot be a dictionary key; the other values can. *)
Inductive pykey : Type :=
  | KNone : pykey
  | KStr (s : string) : pykey
  | KInt (z : Z) : pykey.

#[global] Instance pykey_eq_dec : EqDecision pykey.
Proof. solve_decision. Defined.

#[global] Instance pykey_countable : Countable pykey.
Proof.
  refine (inj_countable'
    (fun k => match k with
              | KNone => inl (inl tt)
              | KStr s => inl (inr s)
              | KInt z => inr z
              end)
    (fun c => match c with
              | inl (inl _) => KNone
              | inl (inr s) => KStr s
              | inr z => KInt z
              end) _).
  intros []; reflexivity.
Defined.

Definition key_of (v : pyval) : option pykey :=
  match v with
  | PNone => Some KNone
  | PStr s => Some (KStr s)
  | PInt z => Some (KInt z)
  | PNode _ => None
  end.

(** ** Outcomes of a run *)

(** Modelled from the spec: the tuple [tokens] comes from the scanner,
    which is not part of the sources; the spec lists its eighteen token
    types, and [parser.py] adds the fake token [UMINUS], which is never
    scanned. *)
Inductive toktype : Type :=
  | IDENT | NUMBER | PLUS | MINUS | STAR | SLASH | PERCENT | AMP | BAR
  | CARET | LTLT | GTGT | TILDE | EQ | SEMICOLON | LPAREN | RPAREN | PRINT
  | UMINUS.

(** The exceptions that the two files can raise; none of them is caught
    anywhere, so each one ends the process with a traceback. *)
Inductive exn : Type :=
  | AttributeError | IndexError | KeyError | TypeError | ValueError
  | ZeroDivisionError
  | SyntaxError (t : toktype).

(** A computation returns, leaves through [sys.exit], or raises. *)
Inductive result (A : Type) : Type :=
  | Return (a : A)
  | Exit (status : Z)
  | Raise (e : exn).
Arguments Return {A} a.
Arguments Exit {A} status.
Arguments Raise {A} e.

(** Standard output is the list of the arguments of the calls to [print],
    oldest first: each call writes [str] of its argument and a newline. *)
Definition io (A : Type) : Type := (list pyval * result A)%type.

Definition ret {A} (a : A) : io A := ([], Return a).
Definition raise {A} (e : exn) : io A := ([], Raise e).
Definition py_print (v : pyval) : io unit := ([v], Return tt).
Definition sys_exit {A} (status : Z) : io A := ([], Exit status).

Definition bind {A B} (m : io A) (f : A -> io B) : io B :=
  match m with
  | (out, Return a) => let '(out', r) := f a in (out ++ out', r)
  | (out, Exit s) => (out, Exit s)
  | (out, Raise e) => (out, Raise e)
  end.

Notation "'let*' x := m 'in' k" := (bind m (fun x => k))
  (at level 10, x pattern, m at level 100, k at level 200).

(** ** [truncate_number] *)

Definition truncate_number (num : Z) : Z :=
  let num := Z.land num 0xffffffffffffffff in
  if negb (Z.eqb (Z.land num (Z.shiftl 1 63)) 0)
  then num - Z.shiftl 1 64
  else num.

(** ** [evaluate_expression] *)

(** [str] of an integer: its signed decimal numeral. *)
Definition str_int (z : Z) : string := pretty z.

(** [str] of a hashable value, as the f-string of the error message
    formats it. *)
Definition str_key (k : pykey) : string :=
  match k with
  | KNone => "None"
  | KStr s => s
  | KInt z => str_int z
  end.

(** The two dictionary displays of [evaluate_expression], on integers.
    [//] and [%] raise [ZeroDivisionError] on a zero divisor and the two
    shifts raise [ValueError] on a negative count; Python's [//] and [%]
    round towards minus infinity, as [Z.div] and [Z.modulo] do. *)
Definition binary_operators : list (string * (Z -> Z -> result Z)) :=
  [ ("+", fun x y => Return (x + y));
    ("-", fun x y => Return (x - y));
    ("*", fun x y => Return (x * y));
    ("/", fun x y => if Z.eqb y 0 then Raise ZeroDivisionError
                     else Return (Z.div x y));
    ("%", fun x y => if Z.eqb y 0 then Raise ZeroDivisionError
                     else Return (Z.modulo x y));
    ("&", fun x y => Return (Z.land x y));
    ("|", fun x y => Return (Z.lor x y));
    ("^", fun x y => Return (Z.lxor x y));
    ("<<", fun x y => if Z.ltb y 0 then Raise ValueError
                      else Return (Z.shiftl x y));
    (">>", fun x y => if Z.ltb y 0 then Raise ValueError
                      else Return (Z.shiftr x y)) ].

Definition unary_operators : list (string * (Z -> result Z)) :=
  [ ("-", fun x => Return (- x));
    ("~", fun x => Return (Z.lnot x)) ].

Fixpoint assoc {A} (s : string) (d : list (string * A)) : option A :=
  match d with
  | [] => None
  | (k, a) :: d' => if String.eqb k s then Some a else assoc s d'
  end.

(** The subscript [d[key]] of a dictionary display whose keys are
    strings: an unhashable key is a [TypeError], an absent one a
    [KeyError]. *)
Definition subscript {A} (d : list (string * A)) (key : pyval) : result A :=
  match key with
  | PNode _ => Raise TypeError
  | PStr s => match assoc s d with
              | Some a => Return a
              | None => Raise KeyError
              end
  | _ => Raise KeyError
  end.

(** A lambda of the dictionaries applied to objects, followed by
    [truncate_number].  With an operand that is not an integer the lambda
    or the [&] of [truncate_number] raises (a [TypeError]; the string
    cases of [+], [*] and [%] that do return a string fail in
    [truncate_number]). *)
Definition call2 (f : Z -> Z -> result Z) (x y : pyval) : io pyval :=
  match x, y with
  | PInt a, PInt b =>
      match f a b with
      | Return res => ret (PInt (truncate_number res))
      | Exit s => sys_exit s
      | Raise e => raise e
      end
  | _, _ => raise TypeError
  end.

Definition call1 (f : Z -> result Z) (x : pyval) : io pyval :=
  match x with
  | PInt a =>
      match f a with
      | Return res => ret (PInt (truncate_number res))
      | Exit s => sys_exit s
      | Raise e => raise e
      end
  | _ => raise TypeError
  end.

Fixpoint evaluate_expression (variables : gmap pykey pyval) (node : pyval)
    {struct node} : io pyval :=
  match node with
  | PNode (mkNode opcode value kids) =>
      if String.eqb opcode "var" then
        match key_of value with
        | None => raise TypeError
        | Some name =>
            match variables !! name with
            | None =>
                let* _ := py_print (PStr ("Error: " ++ str_key name
                                         ++ " is not defined")) in
                sys_exit 1
            | Some v => ret v
            end
        end
      else if String.eqb opcode "num" then ret value
      else if String.eqb opcode "binop" then
        match subscript binary_operators value with
        | Return f =>
            match kids with
            | [] => raise IndexError
            | kid0 :: kids' =>
                let* x := evaluate_expression variables kid0 in
                match kids' with
                | [] => raise IndexError
                | kid1 :: _ =>
                    let* y := evaluate_expression variables kid1 in
                    call2 f x y
                end
            end
        | Exit s => sys_exit s
        | Raise e => raise e
        end
      else if String.eqb opcode "unop" then
        match subscript unary_operators value with
        | Return f =>
            match kids with
            | [] => raise IndexError
            | kid0 :: _ =>
                let* x := evaluate_expression variables kid0 in
                call1 f x
            end
        | Exit s => sys_exit s
        | Raise e => raise e
        end
      else ret PNone
  | _ => raise AttributeError
  end.

(** ** [process_stmt] and the statement loop of [main] *)

(** The dictionary [variables] is mutated in place and shared by the
    whole loop; the model threads it.  In the assignment the right-hand
    side is evaluated before the subscript [node.kids[0]]. *)
Definition process_stmt (variables : gmap pykey pyval) (node : pyval)
    : io (gmap pykey pyval) :=
  match node with
  | PNode (mkNode opcode value kids) =>
      if String.eqb opcode "assign" then
        match kids with
        | kid0 :: kid1 :: _ =>
            let* v := evaluate_expression variables kid1 in
            match key_of kid0 with
            | Some name => ret (<[name := v]> variables)
            | None => raise TypeError
            end
        | _ => raise IndexError
        end
      else
        let* v := evaluate_expression variables value in
        let* _ := py_print v in
        ret variables
  | _ => raise AttributeError
  end.

(** The loop [while stmts.kids: ...; stmts = stmts.kids[1]]; it returns
    the dictionary as the loop leaves it. *)
Fixpoint run_statements (variables : gmap pykey pyval) (stmts : pyval)
    {struct stmts} : io (gmap pykey pyval) :=
  match stmts with
  | PNode (mkNode _ _ kids) =>
      match kids with
      | [] => ret variables
      | kid0 :: kids' =>
          let* variables' := process_stmt variables kid0 in
          match kids' with
          | [] => raise IndexError
          | kid1 :: _ => run_statements variables' kid1
          end
      end
  | _ => raise AttributeError
  end.

(** The text of a standard-output line, for the values whose [str] the
    model covers ([repr] of a [Node] is left out). *)
Definition line_of (v : pyval) : option string :=
  match v with
  | PNone => Some "None"
  | PStr s => Some s
  | PInt z => Some (str_int z)
  | PNode _ => None
  end.

(** The nodes as the grammar's actions lay them out. *)
Definition Var (name : string) : pyval := PNode (mkNode "var" (PStr name) []).
Definition Num (v : Z) : pyval := PNode (mkNode "num" (PInt v) []).
Definition BinOp (op : string) (l r : pyval) : pyval :=
  PNode (mkNode "binop" (PStr op) [l; r]).
Definition UnOp (op : string) (x : pyval) : pyval :=
  PNode (mkNode "unop" (PStr op) [x]).
Definition Assign (name : string) (e : pyval) : pyval :=
  PNode (mkNode "assign" (PStr "=") [PStr name; e]).
Definition Print (e : pyval) : pyval := PNode (mkNode "print" e []).
Definition Statements (kids : list pyval) : pyval :=
  PNode (mkNode "statements" PNone kids).


(** ** Tokens and the grammar of [parser.py] *)

(** A token as the scanner hands it to the parser: its type and its
    value (the lexeme, or the integer of a [NUMBER]). *)
Record token : Type := mkToken { ttype : toktype; tvalue : pyval }.

(** Terminals are the token types and yacc's end marker [$end]. *)
Inductive terminal : Type :=
  | Tok (t : toktype)
  | EndMarker.

(** Non-terminals; [N_start] is the start symbol [S'] that yacc adds. *)
Inductive nonterminal : Type :=
  | N_start | N_program | N_stmt | N_assign | N_print | N_expr.

Inductive symbol : Type :=
  | T (a : terminal)
  | NT (n : nonterminal).

#[global] Instance toktype_eq_dec : EqDecision toktype.
Proof. solve_decision. Defined.
#[global] Instance terminal_eq_dec : EqDecision terminal.
Proof. solve_decision. Defined.
#[global] Instance nonterminal_eq_dec : EqDecision nonterminal.
Proof. solve_decision. Defined.
#[global] Instance symbol_eq_dec : EqDecision symbol.
Proof. solve_decision. Defined.

(** The associativities and the table [precedence], lowest level first. *)
Inductive associativity : Type := LeftAssoc | RightAssoc | NonAssoc.

Definition precedence : list (associativity * list toktype) :=
  [ (LeftAssoc, [BAR]);
    (LeftAssoc, [CARET]);
    (LeftAssoc, [AMP]);
    (LeftAssoc, [LTLT; GTGT]);
    (LeftAssoc, [PLUS; MINUS]);
    (LeftAssoc, [STAR; SLASH; PERCENT]);
    (LeftAssoc, [UMINUS]);
    (LeftAssoc, [TILDE]) ].

(** [p[i]] of a production: [p[0]] is the slot of the result and
    [p[1]], ... are the values of the right-hand side. *)
Definition sub (p : list pyval) (i : nat) : pyval := nth i p PNone.

(** The semantic actions, one per [p_*] function. *)
Definition p_program (p : list pyval) : pyval :=
  let node := mkNode "statements" PNone [] in
  if (1 <? length p)%nat
  then PNode (mkNode (opcode node) (value node) [sub p 1; sub p 2])
  else PNode node.

Definition p_stmt (p : list pyval) : pyval := sub p 1.

Definition p_stmt_assign (p : list pyval) : pyval :=
  PNode (mkNode "assign" (PStr "=") [sub p 1; sub p 3]).

Definition p_stmt_print (p : list pyval) : pyval :=
  PNode (mkNode "print" (sub p 3) []).

Definition p_expr_ident (p : list pyval) : pyval :=
  PNode (mkNode "var" (sub p 1) []).

Definition p_expr_number (p : list pyval) : pyval :=
  PNode (mkNode "num" (sub p 1) []).

Definition p_expr_binop (p : list pyval) : pyval :=
  PNode (mkNode "binop" (sub p 2) [sub p 1; sub p 3]).

Definition p_expr_unop (p : list pyval) : pyval :=
  PNode (mkNode "unop" (sub p 1) [sub p 2]).

Definition p_expr_parens (p : list pyval) : pyval := sub p 2.

(** A production: its left-hand side, its right-hand side, the token of
    a [%prec] directive if it has one, and its action. *)
Record production : Type := mkProd {
  p_name : nonterminal;
  p_prod : list symbol;
  p_prec : option toktype;
  p_func : list pyval -> pyval
}.

Definition tk (t : toktype) : symbol := T (Tok t).

(** The productions in the order yacc numbers them: [S' -> program]
    first, then the alternatives of the docstrings in file order. *)
Definition productions : list production :=
  [ mkProd N_start [NT N_program] None (fun p => sub p 1);
    mkProd N_program [] None p_program;
    mkProd N_program [NT N_stmt; NT N_program] None p_program;
    mkProd N_stmt [NT N_assign] None p_stmt;
    mkProd N_stmt [NT N_print] None p_stmt;
    mkProd N_assign [tk IDENT; tk EQ; NT N_expr; tk SEMICOLON] None
           p_stmt_assign;
    mkProd N_print [tk PRINT; tk LPAREN; NT N_expr; tk RPAREN; tk SEMICOLON]
           None p_stmt_print;
    mkProd N_expr [tk IDENT] None p_expr_ident;
    mkProd N_expr [tk NUMBER] None p_expr_number;
    mkProd N_expr [NT N_expr; tk PLUS; NT N_expr] None p_expr_binop;
    mkProd N_expr [NT N_expr; tk MINUS; NT N_expr] None p_expr_binop;
    mkProd N_expr [NT N_expr; tk STAR; NT N_expr] None p_expr_binop;
    mkProd N_expr [NT N_expr; tk SLASH; NT N_expr] None p_expr_binop;
    mkProd N_expr [NT N_expr; tk PERCENT; NT N_expr] None p_expr_binop;
    mkProd N_expr [NT N_expr; tk AMP; NT N_expr] None p_expr_binop;
    mkProd N_expr [NT N_expr; tk BAR; NT N_expr] None p_expr_binop;
    mkProd N_expr [NT N_expr; tk CARET; NT N_expr] None p_expr_binop;
    mkProd N_expr [NT N_expr; tk LTLT; NT N_expr] None p_expr_binop;
    mkProd N_expr [NT N_expr; tk GTGT; NT N_expr] None p_expr_binop;
    mkProd N_expr [tk MINUS; NT N_expr] (Some UMINUS) p_expr_unop;
    mkProd N_expr [tk UMINUS; NT N_expr] None p_expr_unop;
    mkProd N_expr [tk TILDE; NT N_expr] None p_expr_unop;
    mkProd N_expr [tk LPAREN; NT N_expr; tk RPAREN] None p_expr_parens ].

(** ** Precedence of tokens and of productions *)

Fixpoint prec_lookup (t : toktype) (level : nat)
    (tbl : list (associativity * list toktype)) : associativity * nat :=
  match tbl with
  | [] => (RightAssoc, 0%nat)
  | (a, ts) :: tbl' =>
      if bool_decide (t ∈ ts) then (a, level)
      else prec_lookup t (S level) tbl'
  end.

(** A token outside the table has [('right', 0)]. *)
Definition token_prec (t : toktype) : associativity * nat :=
  prec_lookup t 1%nat precedence.

Definition terminal_prec (a : terminal) : associativity * nat :=
  match a with
  | Tok t => token_prec t
  | EndMarker => (RightAssoc, 0%nat)
  end.

Fixpoint rightmost_terminal (syms : list symbol) : option toktype :=
  match syms with
  | [] => None
  | x :: syms' =>
      match rightmost_terminal syms' with
      | Some t => Some t
      | None => match x with T (Tok t) => Some t | _ => None end
      end
  end.

(** The precedence of a production: that of its [%prec] token, else
    that of its rightmost terminal. *)
Definition prod_prec (pr : production) : associativity * nat :=
  match p_prec pr with
  | Some t => token_prec t
  | None =>
      match rightmost_terminal (p_prod pr) with
      | Some t => token_prec t
      | None => (RightAssoc, 0%nat)
      end
  end.

(** ** Construction of the LALR(1) automaton *)

Definition all_toktypes : list toktype :=
  [ IDENT; NUMBER; PLUS; MINUS; STAR; SLASH; PERCENT; AMP; BAR; CARET;
    LTLT; GTGT; TILDE; EQ; SEMICOLON; LPAREN; RPAREN; PRINT; UMINUS ].

Definition all_terminals : list terminal :=
  map Tok all_toktypes ++ [EndMarker].

Definition all_nonterminals : list nonterminal :=
  [ N_start; N_program; N_stmt; N_assign; N_print; N_expr ].

Definition all_symbols : list symbol :=
  map T all_terminals ++ map NT all_nonterminals.

Definition prod_at (p : nat) : production :=
  nth p productions (mkProd N_start [] None (fun _ => PNone)).

Definition rhs_of (p : nat) : list symbol := p_prod (prod_at p).
Definition lhs_of (p : nat) : nonterminal := p_name (prod_at p).

(** Boolean equalities, and finite sets as duplicate-free lists. *)
Definition toktype_code (t : toktype) : N :=
  match t with
  | IDENT => 0 | NUMBER => 1 | PLUS => 2 | MINUS => 3 | STAR => 4
  | SLASH => 5 | PERCENT => 6 | AMP => 7 | BAR => 8 | CARET => 9
  | LTLT => 10 | GTGT => 11 | TILDE => 12 | EQ => 13 | SEMICOLON => 14
  | LPAREN => 15 | RPAREN => 16 | PRINT => 17 | UMINUS => 18
  end%N.

Definition terminal_code (a : terminal) : N :=
  match a with
  | Tok t => toktype_code t
  | EndMarker => 19%N
  end.

Definition nonterminal_code (n : nonterminal) : N :=
  match n with
  | N_start => 0 | N_program => 1 | N_stmt => 2 | N_assign => 3
  | N_print => 4 | N_expr => 5
  end%N.

Definition terminal_eqb (a b : terminal) : bool :=
  N.eqb (terminal_code a) (terminal_code b).

Definition nonterminal_eqb (m n : nonterminal) : bool :=
  N.eqb (nonterminal_code m) (nonterminal_code n).

Definition symbol_eqb (x y : symbol) : bool :=
  match x, y with
  | T a, T b => terminal_eqb a b
  | NT m, NT n => nonterminal_eqb m n
  | _, _ => false
  end.

Section Sets.

Context {A : Type} (eqb : A -> A -> bool).

Definition mem (x : A) (l : list A) : bool := existsb (eqb x) l.

Definition add (x : A) (l : list A) : list A :=
  if mem x l then l else l ++ [x].

Definition union (l1 l2 : list A) : list A :=
  fold_left (fun acc x => add x acc) l2 l1.

Definition subset (l1 l2 : list A) : bool :=
  forallb (fun x => mem x l2) l1.

End Sets.

(** Production numbers with a given left-hand side. *)
Definition prods_of (n : nonterminal) : list nat :=
  List.filter (fun p => nonterminal_eqb (lhs_of p) n)
         (seq 0 (length productions)).

Fixpoint iter {A} (n : nat) (f : A -> A) (x : A) : A :=
  match n with
  | O => x
  | S n' => iter n' f (f x)
  end.

(** Nullable non-terminals and FIRST sets, by iteration to the fixed
    point (the number of rounds bounds the size of the sets). *)
Definition nullable_round (nl : list nonterminal) : list nonterminal :=
  List.filter (fun n =>
            existsb (fun p =>
                       forallb (fun x => match x with
                                         | NT m => mem nonterminal_eqb m nl
                                         | T _ => false
                                         end) (rhs_of p))
                    (prods_of n))
         all_nonterminals.

Definition nullable : list nonterminal :=
  Eval vm_compute in iter (length all_nonterminals) nullable_round [].

Definition first_table : Type := list (nonterminal * list terminal).

Definition first_in (tbl : first_table) (n : nonterminal) : list terminal :=
  match find (fun e => nonterminal_eqb (fst e) n) tbl with
  | Some e => snd e
  | None => []
  end.

Fixpoint first_seq (tbl : first_table) (beta : list symbol)
    (la : list terminal) : list terminal :=
  match beta with
  | [] => la
  | T a :: _ => [a]
  | NT n :: beta' =>
      if mem nonterminal_eqb n nullable
      then union terminal_eqb (first_in tbl n) (first_seq tbl beta' la)
      else first_in tbl n
  end.

Definition first_round (tbl : first_table) : first_table :=
  map (fun n =>
         (n, fold_left (fun acc p =>
                          union terminal_eqb acc (first_seq tbl (rhs_of p) []))
                       (prods_of n) (first_in tbl n)))
      all_nonterminals.

Definition first_sets : first_table :=
  Eval vm_compute in
    iter (length all_nonterminals * length all_terminals) first_round [].

(** An LR(1) item: production number, position of the dot, lookahead. *)
Definition item : Type := (nat * nat * terminal)%type.

Definition item_eqb (x y : item) : bool :=
  let '(p, d, a) := x in
  let '(q, e, b) := y in
  Nat.eqb p q && Nat.eqb d e && terminal_eqb a b.

Definition core_eqb (x y : nat * nat) : bool :=
  Nat.eqb (fst x) (fst y) && Nat.eqb (snd x) (snd y).

Definition after_dot (it : item) : option symbol :=
  let '(p, d, _) := it in nth_error (rhs_of p) d.

(** The pairs (non-terminal, lookahead) that one item asks the closure
    to expand: for [A -> alpha . B beta, a], the pairs [(B, b)] with [b]
    in FIRST([beta a]). *)
Definition expansions (it : item) : list (nonterminal * terminal) :=
  let '(p, d, a) := it in
  match nth_error (rhs_of p) d with
  | Some (NT b) =>
      map (fun la => (b, la))
          (first_seq first_sets (skipn (S d) (rhs_of p)) [a])
  | _ => []
  end.

Definition expansion_eqb (x y : nonterminal * terminal) : bool :=
  nonterminal_eqb (fst x) (fst y) && terminal_eqb (snd x) (snd y).

Fixpoint closure_loop (fuel : nat) (work : list item)
    (seen : list (nonterminal * terminal)) (acc : list item)
    : option (list item) :=
  match work with
  | [] => Some acc
  | it :: work' =>
      match fuel with
      | O => None
      | S fuel' =>
          let pairs := List.filter (fun x => negb (mem expansion_eqb x seen))
                              (expansions it) in
          let new :=
            List.filter (fun x => negb (mem item_eqb x acc))
                   (flat_map (fun bl : nonterminal * terminal =>
                                map (fun q => (q, 0%nat, snd bl))
                                    (prods_of (fst bl)))
                             pairs) in
          closure_loop fuel' (work' ++ new) (seen ++ pairs) (acc ++ new)
      end
  end.

Definition item_bound : nat :=
  (length productions * 6 * length all_terminals)%nat.

Definition closure (kernel : list item) : option (list item) :=
  closure_loop (S item_bound) kernel [] kernel.

(** The kernel of GOTO(I, X): the items of [I] with the dot moved over
    [X]. *)
Definition advance (st : list item) (x : symbol) : list item :=
  flat_map (fun it : item =>
              let '(p, d, a) := it in
              match nth_error (rhs_of p) d with
              | Some y => if symbol_eqb x y then [(p, S d, a)] else []
              | None => []
              end) st.

(** The core of a state: its kernel items without the lookaheads. *)
Definition is_kernel (it : item) : bool :=
  let '(p, d, _) := it in (0 <? d)%nat || (p =? 0)%nat.

Definition core (st : list item) : list (nat * nat) :=
  union core_eqb [] (map (fun it : item => let '(p, d, _) := it in (p, d))
                (List.filter is_kernel st)).

Definition same_core (c1 c2 : list (nat * nat)) : bool :=
  subset core_eqb c1 c2 && subset core_eqb c2 c1.

Fixpoint find_core (states : list (list item)) (c : list (nat * nat))
    (i : nat) : option nat :=
  match states with
  | [] => None
  | st :: states' =>
      if same_core (core st) c then Some i else find_core states' c (S i)
  end.

Definition symbols_after_dot (st : list item) : list symbol :=
  fold_left (fun acc it => match after_dot it with
                           | Some x => add symbol_eqb x acc
                           | None => acc
                           end) st [].

Fixpoint set_nth {A} (i : nat) (x : A) (l : list A) : list A :=
  match l, i with
  | [], _ => []
  | _ :: l', O => x :: l'
  | y :: l', S i' => y :: set_nth i' x l'
  end.

(** One state is taken from the work list and its successors are merged
    into the states of the same core: states of equal core are shared and
    their lookaheads united, which is what makes the automaton LALR(1). *)
Definition merge_successor (acc : option (list (list item) * list nat))
    (J : option (list item)) : option (list (list item) * list nat) :=
  match acc, J with
  | Some (states, work), Some J =>
      match find_core states (core J) 0%nat with
      | Some j =>
          let stj := nth j states [] in
          if subset item_eqb J stj then Some (states, work)
          else Some (set_nth j (union item_eqb stj J) states,
                     add Nat.eqb j work)
      | None => Some (states ++ [J], work ++ [length states])
      end
  | _, _ => None
  end.

Fixpoint states_loop (fuel : nat) (work : list nat)
    (states : list (list item)) : option (list (list item)) :=
  match work with
  | [] => Some states
  | i :: work' =>
      match fuel with
      | O => None
      | S fuel' =>
          let st := nth i states [] in
          match fold_left merge_successor
                          (map (fun x => closure (advance st x))
                               (symbols_after_dot st))
                          (Some (states, work')) with
          | Some (states', work'') => states_loop fuel' work'' states'
          | None => None
          end
      end
  end.

Definition build_states : option (list (list item)) :=
  match closure [(0%nat, 0%nat, EndMarker)] with
  | Some st0 => states_loop 4000 [0%nat] [st0]
  | None => None
  end.

(** The states of the automaton, computed once from the grammar. *)
Definition lalr_states : option (list (list item)) :=
  Eval vm_compute in build_states.

Definition states : list (list item) :=
  Eval vm_compute in
    match lalr_states with
    | Some sts => sts
    | None => []
    end.

Definition state_cores : list (list (nat * nat)) :=
  Eval vm_compute in map core states.

Fixpoint index_of_core (cores : list (list (nat * nat)))
    (c : list (nat * nat)) (i : nat) : option nat :=
  match cores with
  | [] => None
  | c' :: cores' =>
      if same_core c' c then Some i else index_of_core cores' c (S i)
  end.

(** GOTO(state, X): the state whose core is the kernel reached over [X]. *)
Definition goto_of (i : nat) (x : symbol) : option nat :=
  match advance (nth i states []) x with
  | [] => None
  | k => index_of_core state_cores (core k) 0%nat
  end.

(** ** The parsing tables and the resolution of conflicts *)

Inductive action : Type :=
  | Shift (s : nat)
  | Reduce (p : nat)
  | Accept
  | Error.

(** A shift/reduce conflict between production [p] and a shift of [a]
    to state [j], resolved by yacc's rule: the higher precedence wins,
    and at equal levels the associativity of the production decides. *)
Definition resolve (p : nat) (a : terminal) (j : nat) : action :=
  let '(rprec, rlevel) := prod_prec (prod_at p) in
  let '(_, slevel) := terminal_prec a in
  if (slevel <? rlevel)%nat then Reduce p
  else if (rlevel <? slevel)%nat then Shift j
  else match rprec with
       | LeftAssoc => Reduce p
       | RightAssoc => Shift j
       | NonAssoc => Error
       end.

(** The productions that state [st] may reduce on lookahead [a], lowest
    number first (a reduce/reduce conflict goes to the earliest rule). *)
Definition reductions (st : list item) (a : terminal) : list nat :=
  List.filter (fun p => mem item_eqb (p, length (rhs_of p), a) st)
         (seq 1 (length productions - 1)).

Definition shift_target (i : nat) (st : list item) (a : terminal)
    : option nat :=
  if existsb (fun it => match after_dot it with
                        | Some x => symbol_eqb x (T a)
                        | None => false
                        end) st
  then goto_of i (T a)
  else None.

Definition action_at (i : nat) (a : terminal) : action :=
  let st := nth i states [] in
  if terminal_eqb a EndMarker && mem item_eqb (0%nat, 1%nat, EndMarker) st
  then Accept
  else
    match shift_target i st a, reductions st a with
    | None, [] => Error
    | Some j, [] => Shift j
    | None, p :: _ => Reduce p
    | Some j, p :: _ => resolve p a j
    end.

Definition action_table : list (list action) :=
  Eval vm_compute in
    map (fun i => map (action_at i) all_terminals) (seq 0 (length states)).

Definition goto_table : list (list (option nat)) :=
  Eval vm_compute in
    map (fun i => map (fun n => goto_of i (NT n)) all_nonterminals)
        (seq 0 (length states)).

(** A state whose only action is one reduction reduces without looking
    at the lookahead (yacc's defaulted states). *)
Definition default_reduction (row : list action) : option nat :=
  match List.filter (fun x => match x with Error => false | _ => true end) row with
  | [Reduce p] => Some p
  | _ => None
  end.

Definition lookup_action (state : nat) (a : terminal) : action :=
  let row := nth state action_table [] in
  match default_reduction row with
  | Some p => Reduce p
  | None => nth (N.to_nat (terminal_code a)) row Error
  end.

Definition lookup_goto (state : nat) (n : nonterminal) : option nat :=
  nth (N.to_nat (nonterminal_code n)) (nth state goto_table []) None.

(** ** The LR driver ([parser.parse]) *)

(** The state stack and the symbol stack, top first; the bottom state 0
    is implicit. *)
Definition stack : Type := list (nat * symbol * pyval).

Definition top_state (stk : stack) : nat :=
  match stk with
  | [] => 0%nat
  | (s, _, _) :: _ => s
  end.

Definition lookahead (ts : list token) : terminal :=
  match ts with
  | [] => EndMarker
  | t :: _ => Tok (ttype t)
  end.

Inductive step : Type :=
  | Continue (stk : stack) (ts : list token)
  | Done (r : result pyval).

(** [p_error]: at the end of the input it returns and the parse gives
    [None]; on a token it reports through the scanner and raises
    [SyntaxError(p.type)]. *)
Definition p_error (ts : list token) : result pyval :=
  match ts with
  | [] => Return PNone
  | t :: _ => Raise (SyntaxError (ttype t))
  end.

Definition lr_step (stk : stack) (ts : list token) : step :=
  match lookup_action (top_state stk) (lookahead ts) with
  | Shift s =>
      match ts with
      | t :: ts' => Continue ((s, T (Tok (ttype t)), tvalue t) :: stk) ts'
      | [] => Done (p_error ts)
      end
  | Reduce p =>
      let plen := length (rhs_of p) in
      let args := rev (map snd (firstn plen stk)) in
      let stk' := skipn plen stk in
      let v := p_func (prod_at p) (PNone :: args) in
      match lookup_goto (top_state stk') (lhs_of p) with
      | Some s => Continue ((s, NT (lhs_of p), v) :: stk') ts
      | None => Done (Raise KeyError)
      end
  | Accept =>
      match stk with
      | (_, _, v) :: _ => Done (Return v)
      | [] => Done (Raise IndexError)
      end
  | Error => Done (p_error ts)
  end.

Fixpoint lr_loop (fuel : nat) (stk : stack) (ts : list token)
    : option (result pyval) :=
  match fuel with
  | O => None
  | S fuel' =>
      match lr_step stk ts with
      | Continue stk' ts' => lr_loop fuel' stk' ts'
      | Done r => Some r
      end
  end.

(** The number of steps of the driver is bounded by a multiple of the
    length of the input (see [lr_loop_terminates]). *)
Definition parse_fuel (ts : list token) : nat := (6 * length ts + 2)%nat.

(** [parser.parse(lexer=lexer)] on the token stream of a file: the tree,
    [None] after an error at the end of the input, or [SyntaxError]. *)
Definition parse (ts : list token) : result pyval :=
  match lr_loop (parse_fuel ts) [] ts with
  | Some r => r
  | None => Return PNone
  end.

(** ** [main] *)

Definition lift {A} (r : result A) : io A := ([], r).

(** One round of the loop over [sys.argv[1:]]: the banner, a fresh
    dictionary, the parse and the statement loop.  [load_source] and the
    scanner are outside this file: the token stream of the file is
    given. *)
Definition process_file (filename : string) (ts : list token)
    : io (gmap pykey pyval) :=
  let* _ := py_print (PStr ("[[ processing " ++ filename ++ " ]]")) in
  let variables := ∅ in
  let* stmts := lift (parse ts) in
  run_statements variables stmts.

Fixpoint main (files : list (string * list token)) : io unit :=
  match files with
  | [] => ret tt
  | (filename, ts) :: files' =>
      let* _ := process_file filename ts in
      main files'
  end.

(** Modelled from the spec: the scanner is not part of the sources.  An
    [IDENT] carries its name, a [NUMBER] its integer, and every other
    token its lexeme, which for an operator is the symbol that the
    evaluator looks up (the tests of [parser.py] expect ["+"], ["-"],
    ["*"] and ["~"] in the nodes). *)
Definition lexeme (t : toktype) : string :=
  match t with
  | IDENT => "" | NUMBER => ""
  | PLUS => "+" | MINUS => "-" | STAR => "*" | SLASH => "/"
  | PERCENT => "%" | AMP => "&" | BAR => "|" | CARET => "^"
  | LTLT => "<<" | GTGT => ">>" | TILDE => "~" | EQ => "="
  | SEMICOLON => ";" | LPAREN => "(" | RPAREN => ")" | PRINT => "print"
  | UMINUS => "-"
  end.

Definition tok (t : toktype) : token := mkToken t (PStr (lexeme t)).
Definition ident (name : string) : token := mkToken IDENT (PStr name).
Definition number (z : Z) : token := mkToken NUMBER (PInt z).

(** ** The automaton seen as a graph, for the invariants of the driver *)

(** The items of a state without their lookaheads. *)
Definition state_items : list (list (nat * nat)) :=
  Eval vm_compute in
    map (fun st => union core_eqb []
                     (map (fun it : item => let '(p, d, _) := it in (p, d)) st))
        states.

Definition items_of (s : nat) : list (nat * nat) := nth s state_items [].

Definition has_item (s p d : nat) : bool := mem core_eqb (p, d) (items_of s).

(** The moves of the driver: a shift on a terminal, a goto on a
    non-terminal. *)
Definition transition (s : nat) (x : symbol) : option nat :=
  match x with
  | T a => match lookup_action s a with
           | Shift j => Some j
           | _ => None
           end
  | NT n => lookup_goto s n
  end.

(** The symbol under which a state is entered. *)
Definition accessing (s : nat) : option symbol :=
  match List.filter (fun pd : nat * nat => (0 <? snd pd)%nat) (items_of s) with
  | (p, S d) :: _ => nth_error (rhs_of p) d
  | _ => None
  end.

Definition check_initial : bool :=
  forallb (fun pd : nat * nat => (snd pd =? 0)%nat) (items_of 0).

(** Every move into a state reads the symbol that precedes the dot of
    each of its items, and comes from a state that holds the item with
    the dot one place earlier. *)
Definition check_transitions : bool :=
  forallb (fun s =>
    forallb (fun x =>
      match transition s x with
      | None => true
      | Some s' =>
          match accessing s' with
          | Some y => symbol_eqb y x
          | None => false
          end &&
          forallb (fun pd : nat * nat =>
                     match snd pd with
                     | O => true
                     | S d' =>
                         match nth_error (rhs_of (fst pd)) d' with
                         | Some y => symbol_eqb y x
                                     && has_item s (fst pd) d'
                         | None => false
                         end
                     end) (items_of s')
      end) all_symbols) (seq 0 (length states)).

(** A reduction is by a production whose item with the dot at the end is
    in the state, and never by the start production; the state accepts
    only with [S' -> program .]. *)
Definition check_reductions : bool :=
  forallb (fun s =>
    forallb (fun a =>
      match lookup_action s a with
      | Reduce p => (0 <? p)%nat && (p <? length productions)%nat
                    && has_item s p (length (rhs_of p))
      | Accept => has_item s 0 1
      | _ => true
      end) all_terminals) (seq 0 (length states)).

(** A state that holds an item with the dot at the start has a goto on
    the left-hand side of that item's production. *)
Definition check_gotos : bool :=
  forallb (fun s =>
    forallb (fun pd : nat * nat =>
               match snd pd, fst pd with
               | O, S _ => match lookup_goto s (lhs_of (fst pd)) with
                           | Some _ => true
                           | None => false
                           end
               | _, _ => true
               end) (items_of s)) (seq 0 (length states)).

(** The empty production is reduced only where the top of the stack is
    not a [program]. *)
Definition check_empty_reduction : bool :=
  forallb (fun s =>
    forallb (fun a =>
      match lookup_action s a with
      | Reduce 1 => match accessing s with
                    | Some (NT N_program) => false
                    | _ => true
                    end
      | _ => true
      end) all_terminals) (seq 0 (length states)).

(** Weights of the symbols: every production but the empty one weighs
    more on its right-hand side than on its left. *)
Definition weight (x : symbol) : nat :=
  match x with
  | T _ => 2
  | NT N_assign | NT N_print => 2
  | NT N_stmt | NT N_expr => 1
  | NT N_program | NT N_start => 0
  end%nat.

Definition weights (xs : list symbol) : nat :=
  fold_right (fun x n => (weight x + n)%nat) 0%nat xs.

Definition check_weights : bool :=
  forallb (fun p => match p with
                    | 0%nat | 1%nat => true
                    | _ => (weight (NT (lhs_of p)) <? weights (rhs_of p))%nat
                    end) (seq 0 (length productions)).

Definition sym_of (e : nat * symbol * pyval) : symbol := snd (fst e).

(** The stack is a path of the automaton from state 0. *)
Fixpoint path (stk : stack) : Prop :=
  match stk with
  | [] => True
  | e :: rest =>
      transition (top_state rest) (sym_of e) = Some (fst (fst e)) /\ path rest
  end.

Definition is_program_top (stk : stack) : bool :=
  match stk with
  | (_, NT N_program, _) :: _ => true
  | _ => false
  end.

(** The measure that every step of the driver decreases. *)
Definition measure (stk : stack) (ts : list token) : nat :=
  (6 * length ts + 2 * weights (map sym_of stk)
   + (if is_program_top stk then 0 else 1))%nat.


(** ** The trees of the grammar *)

Definition binary_symbols : list string := map fst binary_operators.
Definition unary_symbols : list string := map fst unary_operators.

(** The expressions, statements and programs that the actions build from
    scanned tokens. *)
Inductive is_expr : pyval -> Prop :=
  | is_var name : is_expr (Var name)
  | is_num z : is_expr (Num z)
  | is_binop op l r :
      In op binary_symbols -> is_expr l -> is_expr r ->
      is_expr (BinOp op l r)
  | is_unop op e :
      In op unary_symbols -> is_expr e -> is_expr (UnOp op e).

Inductive is_stmt : pyval -> Prop :=
  | is_assign name e : is_expr e -> is_stmt (Assign name e)
  | is_print e : is_expr e -> is_stmt (Print e).

Inductive is_program : pyval -> Prop :=
  | is_empty : is_program (Statements [])
  | is_seq stmt rest :
      is_stmt stmt -> is_program rest -> is_program (Statements [stmt; rest]).

(** Modelled from the spec: the scanner is not part of the sources.  An
    [IDENT] carries its name as a string, a [NUMBER] its integer, any
    other token its lexeme; [UMINUS] is never scanned. *)
Definition scanned (t : token) : Prop :=
  match ttype t with
  | IDENT => exists name, tvalue t = PStr name
  | NUMBER => exists z, tvalue t = PInt z
  | UMINUS => False
  | ty => tvalue t = PStr (lexeme ty)
  end.

(** What the value of a stack entry is, by its symbol. *)
Definition good (x : symbol) (v : pyval) : Prop :=
  match x with
  | T (Tok ty) => scanned (mkToken ty v)
  | T EndMarker => False
  | NT N_expr => is_expr v
  | NT N_stmt | NT N_assign | NT N_print => is_stmt v
  | NT N_program => is_program v
  | NT N_start => False
  end.

Definition values_ok (stk : stack) : Prop :=
  Forall (fun e => good (sym_of e) (snd e)) stk.

(** All the [Node] objects of a value. *)
Fixpoint nodes_of (v : pyval) : list Node :=
  match v with
  | PNode (mkNode _ val ks as n) =>
      n :: nodes_of val ++ flat_map nodes_of ks
  | _ => []
  end.

(** ** Notions used by the statements below *)

(** An evaluation that returns has written nothing: the only [print] of
    [evaluate_expression] is followed by [sys.exit]. *)
Definition quiet {A} (m : io A) : Prop :=
  match m with
  | (out, Return _) => out = []
  | _ => True
  end.


(** The types of the ten binary operator tokens. *)
Definition binary_tokens : list toktype :=
  [ PLUS; MINUS; STAR; SLASH; PERCENT; AMP; BAR; CARET; LTLT; GTGT ].

(** The precedence level of a token type (0 when it has none). *)
Definition level (t : toktype) : nat := snd (token_prec t).

(** The right-leaning chain that [p_program] builds for a sequence of
    statements. *)
Fixpoint chain (stmts : list pyval) : pyval :=
  match stmts with
  | [] => Statements []
  | stmt :: stmts' => Statements [stmt; chain stmts']
  end.

(** The layout of the statement nodes: a [print] node holds its
    expression in [value] and has no kids; an [assign] node holds ["="]
    in [value] and has two kids, the name and the expression. *)
Definition statement_layout (n : Node) : Prop :=
  (opcode n = "print" -> kids n = [] /\ is_expr (value n)) /\
  (opcode n = "assign" ->
   value n = PStr "=" /\
   exists name e, kids n = [PStr name; e] /\ is_expr e).

(** * Properties of [truncate_number] *)

Lemma land_bit63 (m : Z) :
  Z.land m (Z.shiftl 1 63) = if Z.testbit m 63 then 2 ^ 63 else 0.
Proof.
  change (Z.shiftl 1 63) with (2 ^ 63).
  apply Z.bits_inj'; intros k Hk.
  rewrite Z.land_spec, Z.pow2_bits_eqb by lia.
  destruct (Z.eqb_spec 63 k) as [<- | Hne].
  - rewrite andb_true_r.
    destruct (Z.testbit m 63) eqn:E.
    + symmetry; apply Z.pow2_bits_true; lia.
    + symmetry; apply Z.bits_0.
  - rewrite andb_false_r.
    destruct (Z.testbit m 63).
    + symmetry; apply Z.pow2_bits_false; lia.
    + symmetry; apply Z.bits_0.
Qed.

Lemma testbit63_ge (m : Z) :
  0 <= m < 2 ^ 64 -> Z.testbit m 63 = (2 ^ 63 <=? m).
Proof.
  intros Hm.
  destruct (Z.leb_spec (2 ^ 63) m) as [Hge | Hlt].
  - apply Z.testbit_true; [lia |].
    assert (m / 2 ^ 63 = 1) as ->; [| reflexivity].
    symmetry; apply (Z.div_unique m (2 ^ 63) 1 (m - 2 ^ 63)); lia.
  - apply Z.bits_above_log2; [lia |].
    destruct (Z.eq_dec m 0) as [-> | Hnz]; [simpl; lia |].
    apply Z.log2_lt_pow2; lia.
Qed.

(** [truncate_number] reduces modulo 2^64 and subtracts 2^64 when bit 63
    of the reduced value is set. *)
Lemma truncate_number_spec (n : Z) :
  truncate_number n =
  if Z.testbit (n mod 2 ^ 64) 63 then n mod 2 ^ 64 - 2 ^ 64 else n mod 2 ^ 64.
Proof.
  unfold truncate_number.
  change 0xffffffffffffffff with (Z.ones 64).
  rewrite Z.land_ones by lia.
  rewrite land_bit63.
  change (Z.shiftl 1 64) with (2 ^ 64).
  destruct (Z.testbit (n mod 2 ^ 64) 63); reflexivity.
Qed.

Lemma truncate_number_cases (n : Z) :
  truncate_number n =
  if 2 ^ 63 <=? n mod 2 ^ 64 then n mod 2 ^ 64 - 2 ^ 64 else n mod 2 ^ 64.
Proof.
  rewrite truncate_number_spec, testbit63_ge; [reflexivity |].
  apply Z.mod_pos_bound; lia.
Qed.

Lemma truncate_number_range (n : Z) :
  - 2 ^ 63 <= truncate_number n < 2 ^ 63.
Proof.
  rewrite truncate_number_cases.
  pose proof (Z.mod_pos_bound n (2 ^ 64) ltac:(lia)) as Hm.
  destruct (Z.leb_spec (2 ^ 63) (n mod 2 ^ 64)); lia.
Qed.

Lemma truncate_number_fixed (n : Z) :
  - 2 ^ 63 <= n < 2 ^ 63 -> truncate_number n = n.
Proof.
  intros Hn. rewrite truncate_number_cases.
  destruct (Z.neg_nonneg_cases n) as [Hneg | Hpos].
  - assert (n mod 2 ^ 64 = n + 2 ^ 64) as ->.
    { symmetry; apply (Z.mod_unique n (2 ^ 64) (-1)); lia. }
    destruct (Z.leb_spec (2 ^ 63) (n + 2 ^ 64)); lia.
  - rewrite Z.mod_small by lia.
    destruct (Z.leb_spec (2 ^ 63) n); lia.
Qed.

Lemma truncate_number_idem (n : Z) :
  truncate_number (truncate_number n) = truncate_number n.
Proof. apply truncate_number_fixed, truncate_number_range. Qed.

Lemma truncate_number_mod (n : Z) :
  truncate_number n mod 2 ^ 64 = n mod 2 ^ 64.
Proof.
  rewrite truncate_number_cases.
  destruct (Z.leb_spec (2 ^ 63) (n mod 2 ^ 64)).
  - replace (n mod 2 ^ 64 - 2 ^ 64) with (n mod 2 ^ 64 + (-1) * 2 ^ 64) by lia.
    rewrite Z.mod_add by lia. apply Z.mod_mod; lia.
  - apply Z.mod_mod; lia.
Qed.

(** * Properties of the evaluator *)

Lemma quiet_bind {A B} (m : io A) (f : A -> io B) :
  quiet m -> (forall a, quiet (f a)) -> quiet (bind m f).
Proof.
  destruct m as [out [a | s | e]]; simpl; intros Hm Hf; auto.
  subst out. specialize (Hf a). destruct (f a) as [out' r]. exact Hf.
Qed.

Lemma quiet_call2 f x y : quiet (call2 f x y).
Proof.
  destruct x, y; simpl; auto.
  destruct (f z z0); simpl; auto.
Qed.

Lemma quiet_call1 f x : quiet (call1 f x).
Proof.
  destruct x; simpl; auto.
  destruct (f z); simpl; auto.
Qed.

Lemma evaluate_expression_quiet :
  forall node variables, quiet (evaluate_expression variables node).
Proof.
  fix IH 1.
  intros [ | s | z | [opc v ks]] variables; simpl; auto.
  destruct (String.eqb opc "var").
  { destruct (key_of v) as [name |]; simpl; auto.
    destruct (variables !! name); simpl; auto. }
  destruct (String.eqb opc "num"); [simpl; auto |].
  destruct (String.eqb opc "binop").
  { destruct (subscript binary_operators v) as [f | st | e]; simpl; auto.
    destruct ks as [| kid0 ks']; simpl; auto.
    apply quiet_bind; [apply IH |]. intros x.
    destruct ks' as [| kid1 ks'']; simpl; auto.
    apply quiet_bind; [apply IH |]. intros y.
    apply quiet_call2. }
  destruct (String.eqb opc "unop"); [| simpl; auto].
  destruct (subscript unary_operators v) as [f | st | e]; simpl; auto.
  destruct ks as [| kid0 ks']; simpl; auto.
  apply quiet_bind; [apply IH |]. intros x.
  apply quiet_call1.
Qed.

Lemma evaluate_expression_return variables node out v :
  evaluate_expression variables node = (out, Return v) -> out = [].
Proof.
  intros H. pose proof (evaluate_expression_quiet node variables) as Hq.
  rewrite H in Hq. exact Hq.
Qed.

(** The equations of [evaluate_expression] on operator nodes. *)
Lemma evaluate_binop variables v kid0 kid1 ks :
  evaluate_expression variables (PNode (mkNode "binop" v (kid0 :: kid1 :: ks)))
  = match subscript binary_operators v with
    | Return f =>
        let* x := evaluate_expression variables kid0 in
        let* y := evaluate_expression variables kid1 in
        call2 f x y
    | Exit s => sys_exit s
    | Raise e => raise e
    end.
Proof. reflexivity. Qed.

Lemma evaluate_unop variables v kid0 ks :
  evaluate_expression variables (PNode (mkNode "unop" v (kid0 :: ks)))
  = match subscript unary_operators v with
    | Return f =>
        let* x := evaluate_expression variables kid0 in
        call1 f x
    | Exit s => sys_exit s
    | Raise e => raise e
    end.
Proof. reflexivity. Qed.

Lemma subscript_assoc {A} (d : list (string * A)) op f :
  assoc op d = Some f -> subscript d (PStr op) = Return f.
Proof. intros H. simpl. now rewrite H. Qed.

(** A binary node whose operands evaluate to integers: the operator is
    applied to the two integers and its result truncated. *)
Lemma evaluate_binop_ints variables op f l r x y :
  assoc op binary_operators = Some f ->
  evaluate_expression variables l = ([], Return (PInt x)) ->
  evaluate_expression variables r = ([], Return (PInt y)) ->
  evaluate_expression variables (BinOp op l r)
  = match f x y with
    | Return exact => ([], Return (PInt (truncate_number exact)))
    | Exit s => ([], Exit s)
    | Raise e => ([], Raise e)
    end.
Proof.
  intros Hf Hl Hr. unfold BinOp.
  rewrite evaluate_binop, (subscript_assoc _ _ _ Hf), Hl. simpl.
  rewrite Hr. simpl. destruct (f x y); reflexivity.
Qed.

Lemma evaluate_unop_int variables op f e x :
  assoc op unary_operators = Some f ->
  evaluate_expression variables e = ([], Return (PInt x)) ->
  evaluate_expression variables (UnOp op e)
  = match f x with
    | Return exact => ([], Return (PInt (truncate_number exact)))
    | Exit s => ([], Exit s)
    | Raise e => ([], Raise e)
    end.
Proof.
  intros Hf He. unfold UnOp.
  rewrite evaluate_unop, (subscript_assoc _ _ _ Hf), He. simpl.
  destruct (f x); reflexivity.
Qed.

Lemma bind_return {A B} (m : io A) (f : A -> io B) out b :
  bind m f = (out, Return b) ->
  exists out1 a out2,
    m = (out1, Return a) /\ f a = (out2, Return b) /\ out = out1 ++ out2.
Proof.
  destruct m as [out1 [a | s | e]]; simpl; try discriminate.
  destruct (f a) as [out2 r] eqn:E. intros [= <- ->]. eauto 6.
Qed.

Lemma call2_return f x y out w :
  call2 f x y = (out, Return w) ->
  exists a b exact,
    x = PInt a /\ y = PInt b /\ f a b = Return exact /\
    w = PInt (truncate_number exact).
Proof.
  destruct x, y; simpl; try discriminate.
  destruct (f z z0) eqn:E; simpl; try discriminate.
  intros [= <- <-]. eauto 8.
Qed.

Lemma call1_return f x out w :
  call1 f x = (out, Return w) ->
  exists a exact,
    x = PInt a /\ f a = Return exact /\ w = PInt (truncate_number exact).
Proof.
  destruct x; simpl; try discriminate.
  destruct (f z) eqn:E; simpl; try discriminate.
  intros [= <- <-]. eauto 8.
Qed.

(** Whatever a [binop] or [unop] node returns is the truncation of the
    exact result of its operator on the values of its operands. *)
Lemma evaluate_binop_return variables v ks out w :
  evaluate_expression variables (PNode (mkNode "binop" v ks)) = (out, Return w) ->
  exists f kid0 kid1 ks' x y exact,
    subscript binary_operators v = Return f /\
    ks = kid0 :: kid1 :: ks' /\
    evaluate_expression variables kid0 = ([], Return (PInt x)) /\
    evaluate_expression variables kid1 = ([], Return (PInt y)) /\
    f x y = Return exact /\
    w = PInt (truncate_number exact).
Proof.
  destruct ks as [| kid0 [| kid1 ks']].
  - simpl. destruct (subscript binary_operators v); discriminate.
  - simpl. destruct (subscript binary_operators v); try discriminate.
    destruct (evaluate_expression variables kid0) as [o1 [x1 | s1 | e1]];
      simpl; discriminate.
  - rewrite evaluate_binop.
    destruct (subscript binary_operators v) as [f | s | e]; try discriminate.
    intros H.
    apply bind_return in H as (o1 & x & o2 & Hl & H & _).
    apply bind_return in H as (o3 & y & o4 & Hr & H & _).
    apply call2_return in H as (a & b & exact & -> & -> & Hf & ->).
    pose proof (evaluate_expression_return _ _ _ _ Hl) as ->.
    pose proof (evaluate_expression_return _ _ _ _ Hr) as ->.
    exists f, kid0, kid1, ks', a, b, exact. auto 10.
Qed.

Lemma evaluate_unop_return variables v ks out w :
  evaluate_expression variables (PNode (mkNode "unop" v ks)) = (out, Return w) ->
  exists f kid0 ks' x exact,
    subscript unary_operators v = Return f /\
    ks = kid0 :: ks' /\
    evaluate_expression variables kid0 = ([], Return (PInt x)) /\
    f x = Return exact /\
    w = PInt (truncate_number exact).
Proof.
  destruct ks as [| kid0 ks'].
  - simpl. destruct (subscript unary_operators v); discriminate.
  - rewrite evaluate_unop.
    destruct (subscript unary_operators v) as [f | s | e]; try discriminate.
    intros H.
    apply bind_return in H as (o1 & x & o2 & Hl & H & _).
    apply call1_return in H as (a & exact & -> & Hf & ->).
    pose proof (evaluate_expression_return _ _ _ _ Hl) as ->.
    exists f, kid0, ks', a, exact. auto 10.
Qed.

(** * The statement loop *)

Lemma run_statements_nil variables opc v :
  run_statements variables (PNode (mkNode opc v [])) = ([], Return variables).
Proof. reflexivity. Qed.

Lemma run_statements_cons variables opc v stmt rest more :
  run_statements variables (PNode (mkNode opc v (stmt :: rest :: more)))
  = let* variables' := process_stmt variables stmt in
    run_statements variables' rest.
Proof. reflexivity. Qed.

Lemma process_stmt_print variables e out v :
  evaluate_expression variables e = (out, Return v) ->
  process_stmt variables (Print e) = ([v], Return variables).
Proof.
  intros H. pose proof (evaluate_expression_return _ _ _ _ H) as ->.
  unfold Print. simpl. rewrite H. reflexivity.
Qed.

Lemma process_stmt_assign variables name e out v :
  evaluate_expression variables e = (out, Return v) ->
  process_stmt variables (Assign name e)
  = ([], Return (<[KStr name := v]> variables)).
Proof.
  intros H. pose proof (evaluate_expression_return _ _ _ _ H) as ->.
  unfold Assign. simpl. rewrite H. reflexivity.
Qed.

(** A statement whose expression does not return passes the failure on. *)
Lemma process_stmt_print_fails variables e out :
  (forall status, evaluate_expression variables e = (out, Exit status) ->
     process_stmt variables (Print e) = (out, Exit status)) /\
  (forall err, evaluate_expression variables e = (out, Raise err) ->
     process_stmt variables (Print e) = (out, Raise err)).
Proof. split; intros x H; unfold Print; simpl; rewrite H; reflexivity. Qed.

Lemma process_stmt_assign_fails variables name e out :
  (forall status, evaluate_expression variables e = (out, Exit status) ->
     process_stmt variables (Assign name e) = (out, Exit status)) /\
  (forall err, evaluate_expression variables e = (out, Raise err) ->
     process_stmt variables (Assign name e) = (out, Raise err)).
Proof. split; intros x H; unfold Assign; simpl; rewrite H; reflexivity. Qed.

Lemma run_statements_fails variables stmt rest out :
  (forall status, process_stmt variables stmt = (out, Exit status) ->
     run_statements variables (Statements [stmt; rest]) = (out, Exit status)) /\
  (forall err, process_stmt variables stmt = (out, Raise err) ->
     run_statements variables (Statements [stmt; rest]) = (out, Raise err)).
Proof.
  split; intros x H; unfold Statements; rewrite run_statements_cons, H;
    reflexivity.
Qed.


(** * The automaton: facts checked on the tables *)

Lemma check_initial_ok : check_initial = true.
Proof. vm_compute. reflexivity. Qed.

Lemma check_transitions_ok : check_transitions = true.
Proof. vm_compute. reflexivity. Qed.

Lemma check_reductions_ok : check_reductions = true.
Proof. vm_compute. reflexivity. Qed.

Lemma check_gotos_ok : check_gotos = true.
Proof. vm_compute. reflexivity. Qed.

Lemma check_empty_reduction_ok : check_empty_reduction = true.
Proof. vm_compute. reflexivity. Qed.

Lemma check_weights_ok : check_weights = true.
Proof. vm_compute. reflexivity. Qed.

Lemma terminal_eqb_eq (a b : terminal) : terminal_eqb a b = true -> a = b.
Proof.
  destruct a as [[] |], b as [[] |]; intros H;
    first [reflexivity | discriminate H].
Qed.

Lemma nonterminal_eqb_eq (m n : nonterminal) :
  nonterminal_eqb m n = true -> m = n.
Proof. destruct m, n; intros H; first [reflexivity | discriminate H]. Qed.

Lemma symbol_eqb_eq (x y : symbol) : symbol_eqb x y = true -> x = y.
Proof.
  destruct x as [a | m], y as [b | n]; simpl; intros H; try discriminate.
  - f_equal. now apply terminal_eqb_eq.
  - f_equal. now apply nonterminal_eqb_eq.
Qed.

Lemma core_eqb_eq (x y : nat * nat) : core_eqb x y = true -> x = y.
Proof.
  destruct x, y. unfold core_eqb. simpl.
  intros H. apply andb_true_iff in H as [H1 H2].
  apply Nat.eqb_eq in H1, H2. congruence.
Qed.

Lemma has_item_In s p d : has_item s p d = true -> In (p, d) (items_of s).
Proof.
  unfold has_item, mem. intros H.
  apply existsb_exists in H as (y & Hin & Heq).
  apply core_eqb_eq in Heq. now subst y.
Qed.

Lemma all_terminals_complete (a : terminal) : In a all_terminals.
Proof. destruct a as [[] |]; simpl; tauto. Qed.

Lemma all_symbols_complete (x : symbol) : In x all_symbols.
Proof.
  unfold all_symbols. apply in_or_app. destruct x as [a | n].
  - left. apply in_map, all_terminals_complete.
  - right. apply in_map. destruct n; simpl; tauto.
Qed.

Lemma lookup_action_overflow s a :
  (length states <= s)%nat -> lookup_action s a = Error.
Proof.
  intros H. unfold lookup_action.
  rewrite (nth_overflow action_table) by exact H.
  simpl. now destruct (N.to_nat (terminal_code a)).
Qed.

Lemma lookup_goto_overflow s n :
  (length states <= s)%nat -> lookup_goto s n = None.
Proof.
  intros H. unfold lookup_goto.
  rewrite (nth_overflow goto_table) by exact H.
  now destruct (N.to_nat (nonterminal_code n)).
Qed.

Lemma transition_state s x s' :
  transition s x = Some s' -> In s (seq 0 (length states)).
Proof.
  intros H. apply in_seq. split; [lia |]. simpl.
  destruct (Nat.lt_ge_cases s (length states)) as [Hlt | Hge]; [exact Hlt |].
  destruct x as [a | n]; simpl in H.
  - now rewrite (lookup_action_overflow s a Hge) in H.
  - now rewrite (lookup_goto_overflow s n Hge) in H.
Qed.

Lemma lookup_action_state s a :
  lookup_action s a <> Error -> In s (seq 0 (length states)).
Proof.
  intros H. apply in_seq. split; [lia |]. simpl.
  destruct (Nat.lt_ge_cases s (length states)) as [Hlt | Hge]; [exact Hlt |].
  now rewrite (lookup_action_overflow s a Hge) in H.
Qed.

(** A move into a state reads the symbol before the dot of its items. *)
Lemma transition_items s x s' p d :
  transition s x = Some s' ->
  has_item s' p (S d) = true ->
  nth_error (rhs_of p) d = Some x /\ has_item s p d = true.
Proof.
  intros Ht Hi.
  pose proof check_transitions_ok as C. unfold check_transitions in C.
  rewrite forallb_forall in C. specialize (C s (transition_state _ _ _ Ht)).
  rewrite forallb_forall in C. specialize (C x (all_symbols_complete x)).
  rewrite Ht in C. apply andb_true_iff in C as [_ C].
  rewrite forallb_forall in C. specialize (C (p, S d) (has_item_In _ _ _ Hi)).
  simpl in C. destruct (nth_error (rhs_of p) d) as [y |]; [| discriminate].
  apply andb_true_iff in C as [C1 C2].
  apply symbol_eqb_eq in C1. subst y. auto.
Qed.

Lemma transition_accessing s x s' :
  transition s x = Some s' -> accessing s' = Some x.
Proof.
  intros Ht.
  pose proof check_transitions_ok as C. unfold check_transitions in C.
  rewrite forallb_forall in C. specialize (C s (transition_state _ _ _ Ht)).
  rewrite forallb_forall in C. specialize (C x (all_symbols_complete x)).
  rewrite Ht in C. apply andb_true_iff in C as [C _].
  destruct (accessing s') as [y |]; [| discriminate].
  apply symbol_eqb_eq in C. now subst y.
Qed.

Lemma initial_items p d : has_item 0 p (S d) = false.
Proof.
  destruct (has_item 0 p (S d)) eqn:E; [| reflexivity].
  pose proof check_initial_ok as C. unfold check_initial in C.
  rewrite forallb_forall in C. specialize (C _ (has_item_In _ _ _ E)).
  discriminate C.
Qed.

Lemma reduce_item s a p :
  lookup_action s a = Reduce p ->
  (0 < p < length productions)%nat /\
  has_item s p (length (rhs_of p)) = true.
Proof.
  intros H.
  pose proof check_reductions_ok as C. unfold check_reductions in C.
  rewrite forallb_forall in C.
  assert (lookup_action s a <> Error) as Hne by (rewrite H; discriminate).
  specialize (C s (lookup_action_state _ _ Hne)).
  rewrite forallb_forall in C. specialize (C a (all_terminals_complete a)).
  rewrite H in C.
  apply andb_true_iff in C as [C C3]. apply andb_true_iff in C as [C1 C2].
  apply Nat.ltb_lt in C1, C2. auto.
Qed.

Lemma accept_item s a :
  lookup_action s a = Accept -> has_item s 0 1 = true.
Proof.
  intros H.
  pose proof check_reductions_ok as C. unfold check_reductions in C.
  rewrite forallb_forall in C.
  assert (lookup_action s a <> Error) as Hne by (rewrite H; discriminate).
  specialize (C s (lookup_action_state _ _ Hne)).
  rewrite forallb_forall in C. specialize (C a (all_terminals_complete a)).
  now rewrite H in C.
Qed.

Lemma items_state s p d : has_item s p d = true -> In s (seq 0 (length states)).
Proof.
  intros H. apply in_seq. split; [lia |]. simpl.
  destruct (Nat.lt_ge_cases s (length states)) as [Hlt | Hge]; [exact Hlt |].
  unfold has_item, items_of in H.
  rewrite (nth_overflow state_items) in H by exact Hge. discriminate H.
Qed.

Lemma goto_defined s p :
  (0 < p)%nat -> has_item s p 0 = true ->
  exists s', lookup_goto s (lhs_of p) = Some s'.
Proof.
  intros Hp H.
  pose proof check_gotos_ok as C. unfold check_gotos in C.
  rewrite forallb_forall in C. specialize (C s (items_state _ _ _ H)).
  rewrite forallb_forall in C. specialize (C _ (has_item_In _ _ _ H)).
  simpl in C. destruct p as [| p']; [lia |].
  destruct (lookup_goto s (lhs_of (S p'))) as [s' |]; [eauto | discriminate].
Qed.

Lemma empty_reduction_top s a :
  lookup_action s a = Reduce 1 -> accessing s <> Some (NT N_program).
Proof.
  intros H.
  pose proof check_empty_reduction_ok as C. unfold check_empty_reduction in C.
  rewrite forallb_forall in C.
  assert (lookup_action s a <> Error) as Hne by (rewrite H; discriminate).
  specialize (C s (lookup_action_state _ _ Hne)).
  rewrite forallb_forall in C. specialize (C a (all_terminals_complete a)).
  rewrite H in C. intros E. rewrite E in C. discriminate C.
Qed.

Lemma production_weight p :
  (1 < p < length productions)%nat ->
  (weight (NT (lhs_of p)) < weights (rhs_of p))%nat.
Proof.
  intros Hp.
  pose proof check_weights_ok as C. unfold check_weights in C.
  rewrite forallb_forall in C.
  assert (In p (seq 0 (length productions))) as Hin by (apply in_seq; lia).
  specialize (C p Hin).
  destruct p as [| [| p']]; [lia | lia |]. now apply Nat.ltb_lt in C.
Qed.

(** * The driver: the stack spells the items of its top state *)

Lemma firstn_snoc {A} (l : list A) d x :
  nth_error l d = Some x -> firstn (S d) l = firstn d l ++ [x].
Proof.
  revert d. induction l as [| y l IH]; intros [| d] H; try discriminate.
  - simpl in H. injection H as ->. reflexivity.
  - simpl in H. simpl firstn. rewrite (IH d H). reflexivity.
Qed.

Lemma path_skipn n stk : path stk -> path (skipn n stk).
Proof.
  revert stk. induction n as [| n IH]; intros [| e stk] H; simpl; auto.
  apply IH. exact (proj2 H).
Qed.

Lemma spelled d :
  forall stk p,
    path stk ->
    has_item (top_state stk) p d = true ->
    (d <= length stk)%nat /\
    map sym_of (firstn d stk) = rev (firstn d (rhs_of p)) /\
    has_item (top_state (skipn d stk)) p 0 = true.
Proof.
  induction d as [| d IH]; intros stk p Hpath Hitem.
  - simpl. repeat split; [lia | exact Hitem].
  - destruct stk as [| [[s x] v] rest].
    + simpl in Hitem. now rewrite initial_items in Hitem.
    + simpl in Hpath, Hitem. destruct Hpath as [Ht Hpath].
      unfold sym_of in Ht. simpl in Ht.
      destruct (transition_items _ _ _ _ _ Ht Hitem) as [Hnth Hprev].
      destruct (IH rest p Hpath Hprev) as (Hlen & Hsyms & Hzero).
      repeat split.
      * simpl. lia.
      * rewrite (firstn_snoc _ _ _ Hnth), rev_app_distr. simpl.
        now rewrite Hsyms.
      * exact Hzero.
Qed.

(** In a state that reduces by [p] the top of the stack spells the
    right-hand side of [p], and the state below it has a goto. *)
Lemma reduce_stack stk a p :
  path stk ->
  lookup_action (top_state stk) a = Reduce p ->
  (0 < p < length productions)%nat /\
  (length (rhs_of p) <= length stk)%nat /\
  map sym_of (firstn (length (rhs_of p)) stk) = rev (rhs_of p) /\
  exists s,
    lookup_goto (top_state (skipn (length (rhs_of p)) stk)) (lhs_of p)
    = Some s.
Proof.
  intros Hpath Hact.
  destruct (reduce_item _ _ _ Hact) as [Hp Hitem].
  destruct (spelled _ _ _ Hpath Hitem) as (Hlen & Hsyms & Hzero).
  rewrite firstn_all in Hsyms.
  repeat split; try lia; try exact Hsyms.
  apply goto_defined; [lia | exact Hzero].
Qed.

Lemma lr_step_path stk ts stk' ts' :
  path stk -> lr_step stk ts = Continue stk' ts' -> path stk'.
Proof.
  intros Hpath. unfold lr_step.
  destruct (lookup_action (top_state stk) (lookahead ts)) as [s | p | |] eqn:Ha.
  - destruct ts as [| t ts0]; [discriminate |].
    intros [= <- <-]. simpl. split; [| exact Hpath].
    unfold sym_of. simpl. simpl in Ha. now rewrite Ha.
  - destruct (lookup_goto _ (lhs_of p)) as [s |] eqn:Hg; [| discriminate].
    intros [= <- <-]. simpl. split; [exact Hg | now apply path_skipn].
  - destruct stk as [| [[s x] v] rest]; discriminate.
  - discriminate.
Qed.

(** * The driver terminates *)

Lemma weights_app xs ys : weights (xs ++ ys) = (weights xs + weights ys)%nat.
Proof.
  induction xs as [| x xs IH]; simpl; [reflexivity |].
  unfold weights in *. simpl. rewrite IH. lia.
Qed.

Lemma weights_rev xs : weights (rev xs) = weights xs.
Proof.
  induction xs as [| x xs IH]; simpl; [reflexivity |].
  rewrite weights_app, IH. unfold weights. simpl. lia.
Qed.

Lemma weights_split n stk :
  weights (map sym_of stk)
  = (weights (map sym_of (firstn n stk))
     + weights (map sym_of (skipn n stk)))%nat.
Proof.
  rewrite <- weights_app, <- map_app, firstn_skipn. reflexivity.
Qed.

Lemma program_top_accessing stk :
  path stk -> is_program_top stk = true ->
  accessing (top_state stk) = Some (NT N_program).
Proof.
  destruct stk as [| [[s x] v] rest]; simpl; [discriminate |].
  intros [Ht _] H. unfold sym_of in Ht. simpl in Ht.
  destruct x as [a | []]; try discriminate.
  apply (transition_accessing _ _ _ Ht).
Qed.

Lemma lr_step_measure stk ts stk' ts' :
  path stk -> lr_step stk ts = Continue stk' ts' ->
  (measure stk' ts' < measure stk ts)%nat.
Proof.
  intros Hpath. unfold lr_step.
  destruct (lookup_action (top_state stk) (lookahead ts)) as [s | p | |] eqn:Ha.
  - destruct ts as [| t ts0]; [discriminate |].
    intros [= <- <-]. unfold measure. simpl.
    destruct (is_program_top stk); unfold weights; simpl; lia.
  - destruct (reduce_stack _ _ _ Hpath Ha) as (Hp & Hlen & Hsyms & _).
    destruct (lookup_goto _ (lhs_of p)) as [s |] eqn:Hg; [| discriminate].
    intros [= <- <-]. unfold measure.
    rewrite (weights_split (length (rhs_of p)) stk), Hsyms, weights_rev.
    simpl map. change (sym_of (s, NT (lhs_of p), _)) with (NT (lhs_of p)).
    destruct (Nat.eq_dec p 1%nat) as [-> | Hne].
    + change (length (rhs_of 1%nat)) with 0%nat. simpl skipn.
      assert (is_program_top stk = false) as ->.
      { destruct (is_program_top stk) eqn:E; [| reflexivity].
        exfalso. apply (empty_reduction_top _ _ Ha).
        now apply program_top_accessing. }
      simpl. unfold weights. simpl. lia.
    + pose proof (production_weight p ltac:(lia)) as Hw.
      set (w := weights (map sym_of (skipn (length (rhs_of p)) stk))).
      assert (weights (NT (lhs_of p) :: map sym_of (skipn (length (rhs_of p)) stk))
              = (weight (NT (lhs_of p)) + w)%nat) as -> by reflexivity.
      destruct (is_program_top ((s, NT (lhs_of p), _) :: _));
        destruct (is_program_top stk); lia.
  - destruct stk as [| [[s x] v] rest]; discriminate.
  - discriminate.
Qed.

Lemma lr_loop_terminates fuel :
  forall stk ts,
    path stk -> (measure stk ts < fuel)%nat ->
    exists r, lr_loop fuel stk ts = Some r.
Proof.
  induction fuel as [| fuel IH]; intros stk ts Hpath Hm; [lia |].
  simpl. destruct (lr_step stk ts) as [stk' ts' | r] eqn:E; [| eauto].
  apply IH.
  - exact (lr_step_path _ _ _ _ Hpath E).
  - pose proof (lr_step_measure _ _ _ _ Hpath E). lia.
Qed.

(** [parse] never reaches its bound: its result is the result of the
    driver. *)
Lemma parse_terminates ts :
  lr_loop (parse_fuel ts) [] ts = Some (parse ts).
Proof.
  destruct (lr_loop_terminates (parse_fuel ts) [] ts I) as [r Hr].
  - unfold measure, parse_fuel, weights. simpl. lia.
  - unfold parse. now rewrite Hr.
Qed.

Lemma lr_loop_more fuel :
  forall stk ts r extra,
    lr_loop fuel stk ts = Some r -> lr_loop (fuel + extra) stk ts = Some r.
Proof.
  induction fuel as [| fuel IH]; intros stk ts r extra; [discriminate |].
  simpl. destruct (lr_step stk ts) as [stk' ts' | r']; [apply IH | auto].
Qed.

(** * The values on the stack *)

Lemma cons_inj {A} (x y : A) (l m : list A) :
  x :: l = y :: m -> x = y /\ l = m.
Proof. intros [= -> ->]. auto. Qed.

Ltac pop_entry Hs Hv :=
  match type of Hs with
  | map _ (firstn (S _) ?stk) = _ =>
      let H := fresh "Hgood" in
      destruct stk as [| [[? ?] ?] ?]; [discriminate Hs |];
      apply Forall_cons_iff in Hv as [H Hv];
      simpl firstn in Hs; simpl map in Hs;
      apply cons_inj in Hs as [? Hs]; unfold sym_of in *; simpl in *; subst;
      simpl in H
  end.

Lemma action_good p stk :
  (0 < p < length productions)%nat ->
  map sym_of (firstn (length (rhs_of p)) stk) = rev (rhs_of p) ->
  values_ok stk ->
  good (NT (lhs_of p))
       (p_func (prod_at p)
               (PNone :: rev (map snd (firstn (length (rhs_of p)) stk)))).
Proof.
  intros Hp Hs Hv. unfold values_ok in Hv.
  assert (In p (seq 1 22)) as Hin by (apply in_seq; simpl in Hp; lia).
  simpl in Hin.
  repeat (destruct Hin as [<- | Hin]); [.. | contradiction].
  all: match goal with
       | |- context [rhs_of ?k] =>
           let r := eval vm_compute in (rhs_of k) in
           change (rhs_of k) with r in *
       end.
  all: match goal with
       | |- context [lhs_of ?k] =>
           let r := eval vm_compute in (lhs_of k) in
           change (lhs_of k) with r in *
       end.
  all: simpl length in *; simpl rev in Hs.
  all: repeat pop_entry Hs Hv.
  all: unfold scanned in *; simpl in *.
  all: repeat match goal with
              | H : exists _, _ |- _ => destruct H as [? H]
              | H : False |- _ => destruct H
              end; subst.
  all: cbv [p_program p_stmt p_stmt_assign p_stmt_print p_expr_ident
            p_expr_number p_expr_binop p_expr_unop p_expr_parens sub nth
            length Nat.ltb Nat.leb opcode value].
  all: try assumption.
  all: first [ apply is_empty
             | apply is_seq; assumption
             | apply is_assign; assumption
             | apply is_print; assumption
             | apply is_var
             | apply is_num
             | apply is_binop; [simpl; tauto | assumption | assumption]
             | apply is_unop; [simpl; tauto | assumption] ].
Qed.

Lemma values_ok_skipn n stk : values_ok stk -> values_ok (skipn n stk).
Proof.
  unfold values_ok. revert stk.
  induction n as [| n IH]; intros [| e stk] H; simpl; auto.
  apply IH. now apply Forall_cons_iff in H.
Qed.

Lemma lr_step_values stk ts stk' ts' :
  path stk -> values_ok stk -> Forall scanned ts ->
  lr_step stk ts = Continue stk' ts' ->
  values_ok stk' /\ Forall scanned ts'.
Proof.
  intros Hpath Hv Hts. unfold lr_step.
  destruct (lookup_action (top_state stk) (lookahead ts)) as [s | p | |] eqn:Ha.
  - destruct ts as [| t ts0]; [discriminate |].
    intros [= <- <-]. apply Forall_cons_iff in Hts as [Ht Hts].
    split; [| exact Hts]. constructor; [| exact Hv].
    unfold sym_of. simpl. now destruct t.
  - destruct (reduce_stack _ _ _ Hpath Ha) as (Hp & Hlen & Hsyms & _).
    destruct (lookup_goto _ (lhs_of p)) as [s |] eqn:Hg; [| discriminate].
    intros [= <- <-]. split; [| exact Hts].
    constructor; [| now apply values_ok_skipn].
    exact (action_good p stk Hp Hsyms Hv).
  - destruct stk as [| [[s x] v] rest]; discriminate.
  - discriminate.
Qed.

(** What a step that ends the parse returns: the program on top of the
    stack, or the outcome of [p_error]. *)
Lemma lr_step_done stk ts r :
  path stk -> values_ok stk ->
  lr_step stk ts = Done r ->
  (exists v, r = Return v /\ is_program v) \/ r = p_error ts.
Proof.
  intros Hpath Hv. unfold lr_step.
  destruct (lookup_action (top_state stk) (lookahead ts)) as [s | p | |] eqn:Ha.
  - destruct ts as [| t ts0]; [| discriminate]. intros [= <-]. now right.
  - destruct (reduce_stack _ _ _ Hpath Ha) as (_ & _ & _ & s & Hg).
    now rewrite Hg.
  - pose proof (accept_item _ _ Ha) as Hitem.
    destruct (spelled 1 stk 0%nat Hpath Hitem) as (Hlen & Hsyms & _).
    destruct stk as [| [[s x] v] rest]; [simpl in Hlen; lia |].
    intros [= <-]. left. exists v. split; [reflexivity |].
    apply Forall_cons_iff in Hv as [Hv _].
    simpl in Hsyms. injection Hsyms as Hx. unfold sym_of in *. simpl in *.
    now subst x.
  - intros [= <-]. now right.
Qed.

Lemma lr_loop_result fuel :
  forall stk ts r,
    path stk -> values_ok stk -> Forall scanned ts ->
    lr_loop fuel stk ts = Some r ->
    (exists v, r = Return v /\ is_program v) \/
    r = Return PNone \/
    (exists t, In t ts /\ r = Raise (SyntaxError (ttype t))).
Proof.
  induction fuel as [| fuel IH]; intros stk ts r Hpath Hv Hts; [discriminate |].
  simpl. destruct (lr_step stk ts) as [stk' ts' | r'] eqn:E.
  - intros H.
    destruct (lr_step_values _ _ _ _ Hpath Hv Hts E) as [Hv' Hts'].
    destruct (IH _ _ _ (lr_step_path _ _ _ _ Hpath E) Hv' Hts' H)
      as [Hr | [Hr | (t & Hin & Hr)]]; auto.
    right; right. exists t. split; [| exact Hr].
    revert E. unfold lr_step.
    destruct (lookup_action (top_state stk) (lookahead ts)) as [s | p | |].
    + destruct ts as [| t0 ts0]; [discriminate |].
      intros [= <- <-]. now right.
    + destruct (lookup_goto _ (lhs_of p)); [| discriminate].
      now intros [= <- <-].
    + destruct stk as [| [[s x] v] rest]; discriminate.
    + discriminate.
  - intros [= <-].
    destruct (lr_step_done _ _ _ Hpath Hv E) as [Hr | ->]; [now left |].
    right. destruct ts as [| t ts0]; simpl; [now left |].
    right. exists t. split; [now left | reflexivity].
Qed.

(** The outcomes of [parse] on a scanned token stream: a program of the
    grammar, [None] (an error at the end of the input), or a
    [SyntaxError] naming the type of one of the tokens. *)
Lemma parse_result ts :
  Forall scanned ts ->
  (exists v, parse ts = Return v /\ is_program v) \/
  parse ts = Return PNone \/
  (exists t, In t ts /\ parse ts = Raise (SyntaxError (ttype t))).
Proof.
  intros Hts.
  assert (path []) as Hpath by exact I.
  assert (values_ok []) as Hv by constructor.
  destruct (lr_loop_result _ _ _ _ Hpath Hv Hts (parse_terminates ts))
    as [(v & Hr & Hp) | [Hr | (t & Hin & Hr)]]; eauto.
Qed.

(** * The claims about the evaluator *)

(** C1. For every [binop] and [unop] node the operator is applied to the
    integer values of the operands in exact (unbounded) arithmetic and the
    result goes through [truncate_number], which reduces it modulo 2^64
    into [0, 2^64) and subtracts 2^64 when bit 63 is set (the result is
    congruent to the exact one modulo 2^64); so every value such a node
    returns lies in [-2^63, 2^63).  The dictionaries hold the
    exact operations of [Z]; and (2^63 - 1) + 1 evaluates to -2^63. *)
Theorem C1_operator_results_are_truncated :
  (forall n : Z,
      0 <= n mod 2 ^ 64 < 2 ^ 64 /\
      truncate_number n
      = (if Z.testbit (n mod 2 ^ 64) 63
         then n mod 2 ^ 64 - 2 ^ 64 else n mod 2 ^ 64) /\
      truncate_number n mod 2 ^ 64 = n mod 2 ^ 64 /\
      - 2 ^ 63 <= truncate_number n < 2 ^ 63) /\
  (forall x y : Z,
      map (fun e => (fst e, snd e x y)) binary_operators
      = [ ("+", Return (x + y)); ("-", Return (x - y)); ("*", Return (x * y));
          ("/", if y =? 0 then Raise ZeroDivisionError else Return (x / y));
          ("%", if y =? 0 then Raise ZeroDivisionError
                else Return (x mod y));
          ("&", Return (Z.land x y)); ("|", Return (Z.lor x y));
          ("^", Return (Z.lxor x y));
          ("<<", if y <? 0 then Raise ValueError else Return (Z.shiftl x y));
          (">>", if y <? 0 then Raise ValueError else Return (Z.shiftr x y)) ]
      /\ map (fun e => (fst e, snd e x)) unary_operators
         = [ ("-", Return (- x)); ("~", Return (Z.lnot x)) ]) /\
  (forall variables op f l r out_l out_r x y exact,
      assoc op binary_operators = Some f ->
      evaluate_expression variables l = (out_l, Return (PInt x)) ->
      evaluate_expression variables r = (out_r, Return (PInt y)) ->
      f x y = Return exact ->
      evaluate_expression variables (BinOp op l r)
      = ([], Return (PInt (truncate_number exact)))) /\
  (forall variables op f e out_e x exact,
      assoc op unary_operators = Some f ->
      evaluate_expression variables e = (out_e, Return (PInt x)) ->
      f x = Return exact ->
      evaluate_expression variables (UnOp op e)
      = ([], Return (PInt (truncate_number exact)))) /\
  (forall variables v ks out w,
      evaluate_expression variables (PNode (mkNode "binop" v ks))
      = (out, Return w) ->
      exists f l r ks' x y exact,
        subscript binary_operators v = Return f /\ ks = l :: r :: ks' /\
        evaluate_expression variables l = ([], Return (PInt x)) /\
        evaluate_expression variables r = ([], Return (PInt y)) /\
        f x y = Return exact /\
        w = PInt (truncate_number exact) /\
        - 2 ^ 63 <= truncate_number exact < 2 ^ 63) /\
  (forall variables v ks out w,
      evaluate_expression variables (PNode (mkNode "unop" v ks))
      = (out, Return w) ->
      exists f e ks' x exact,
        subscript unary_operators v = Return f /\ ks = e :: ks' /\
        evaluate_expression variables e = ([], Return (PInt x)) /\
        f x = Return exact /\
        w = PInt (truncate_number exact) /\
        - 2 ^ 63 <= truncate_number exact < 2 ^ 63) /\
  (forall variables,
      evaluate_expression variables (BinOp "+" (Num (2 ^ 63 - 1)) (Num 1))
      = ([], Return (PInt (- 2 ^ 63)))).
Proof.
  repeat apply conj.
  - intros n. split; [apply Z.mod_pos_bound; lia |].
    split; [apply truncate_number_spec |].
    split; [apply truncate_number_mod | apply truncate_number_range].
  - intros x y. split; reflexivity.
  - intros variables op f l r out_l out_r x y exact Hf Hl Hr Hx.
    pose proof (evaluate_expression_return _ _ _ _ Hl) as ->.
    pose proof (evaluate_expression_return _ _ _ _ Hr) as ->.
    rewrite (evaluate_binop_ints _ _ _ _ _ _ _ Hf Hl Hr), Hx. reflexivity.
  - intros variables op f e out_e x exact Hf He Hx.
    pose proof (evaluate_expression_return _ _ _ _ He) as ->.
    rewrite (evaluate_unop_int _ _ _ _ _ Hf He), Hx. reflexivity.
  - intros variables v ks out w H.
    apply evaluate_binop_return in H
      as (f & l & r & ks' & x & y & exact & H1 & H2 & H3 & H4 & H5 & H6).
    exists f, l, r, ks', x, y, exact.
    repeat split; auto; apply truncate_number_range.
  - intros variables v ks out w H.
    apply evaluate_unop_return in H
      as (f & e & ks' & x & exact & H1 & H2 & H3 & H4 & H5).
    exists f, e, ks', x, exact.
    repeat split; auto; apply truncate_number_range.
  - intros variables. reflexivity.
Qed.

Lemma C1_witness :
  evaluate_expression ∅ (BinOp "*" (Num (2 ^ 62)) (Num 4))
  = ([], Return (PInt (truncate_number (2 ^ 64)))).
Proof.
  refine (proj1 (proj2 (proj2 C1_operator_results_are_truncated))
            ∅ "*" _ (Num (2 ^ 62)) (Num 4) [] [] (2 ^ 62) 4 (2 ^ 64) _ _ _ _);
    reflexivity.
Defined.

(** C3. [/] is floor division and [%] floor modulo: the quotient rounds
    towards minus infinity and the remainder takes the sign of the
    divisor; -7 / 2 evaluates to -4 and -7 % 2 to 1. *)
Theorem C3_floor_division_and_modulo :
  (forall variables l r out_l out_r x y,
      y <> 0 ->
      evaluate_expression variables l = (out_l, Return (PInt x)) ->
      evaluate_expression variables r = (out_r, Return (PInt y)) ->
      evaluate_expression variables (BinOp "/" l r)
      = ([], Return (PInt (truncate_number (x / y)))) /\
      evaluate_expression variables (BinOp "%" l r)
      = ([], Return (PInt (truncate_number (x mod y)))) /\
      x = y * (x / y) + x mod y /\
      (0 < y -> y * (x / y) <= x < y * (x / y + 1) /\ 0 <= x mod y < y) /\
      (y < 0 -> y * (x / y + 1) < x <= y * (x / y) /\ y < x mod y <= 0)) /\
  (forall variables,
      evaluate_expression variables (BinOp "/" (Num (-7)) (Num 2))
      = ([], Return (PInt (-4))) /\
      evaluate_expression variables (BinOp "%" (Num (-7)) (Num 2))
      = ([], Return (PInt 1))).
Proof.
  split.
  - intros variables l r out_l out_r x y Hy Hl Hr.
    pose proof (evaluate_expression_return _ _ _ _ Hl) as ->.
    pose proof (evaluate_expression_return _ _ _ _ Hr) as ->.
    assert ((y =? 0) = false) as Hyb by (apply Z.eqb_neq; exact Hy).
    split; [| split].
    + rewrite (evaluate_binop_ints variables "/" _ l r x y eq_refl Hl Hr).
      now rewrite Hyb.
    + rewrite (evaluate_binop_ints variables "%" _ l r x y eq_refl Hl Hr).
      now rewrite Hyb.
    + pose proof (Z.div_mod x y Hy) as Hdm.
      split; [exact Hdm |]. split; intros Hs.
      * pose proof (Z.mod_pos_bound x y Hs). lia.
      * pose proof (Z.mod_neg_bound x y Hs). lia.
  - intros variables. split; reflexivity.
Qed.

Lemma C3_witness :
  evaluate_expression ∅ (BinOp "/" (Num 7) (Num (-2)))
  = ([], Return (PInt (truncate_number (7 / (-2))))).
Proof.
  refine (proj1 (proj1 C3_floor_division_and_modulo
                   ∅ (Num 7) (Num (-2)) [] [] 7 (-2) _ _ _));
    [discriminate | reflexivity | reflexivity].
Defined.

(** C4. A [num] node evaluates to its literal unchanged, whatever its
    size: no truncation happens there.  A literal outside the 64-bit
    range is truncated only once an operator is applied to it. *)
Theorem C4_literals_are_not_truncated :
  (forall (variables : gmap pykey pyval) (v : Z),
      evaluate_expression variables (Num v) = ([], Return (PInt v))) /\
  (forall (variables : gmap pykey pyval) (v : Z),
      process_stmt variables (Print (Num v)) = ([PInt v], Return variables)) /\
  (forall variables : gmap pykey pyval,
      evaluate_expression variables (Num (2 ^ 64 + 5))
      = ([], Return (PInt 18446744073709551621)) /\
      evaluate_expression variables (BinOp "+" (Num (2 ^ 64 + 5)) (Num 0))
      = ([], Return (PInt 5)) /\
      evaluate_expression variables (UnOp "-" (Num (2 ^ 64 + 5)))
      = ([], Return (PInt (-5)))).
Proof.
  split; [| split].
  - reflexivity.
  - reflexivity.
  - intros variables. repeat split; reflexivity.
Qed.

(** C7. A [var] node whose name is not bound prints the error message
    naming the variable and leaves through [sys.exit(1)]: the statement
    in which it occurs, the statement loop and the whole run end there,
    so no later statement (nor later file) is processed.  A bound name
    evaluates to the bound value unchanged. *)
Theorem C7_undefined_variable_is_fatal :
  (forall (variables : gmap pykey pyval) name,
      variables !! KStr name = None ->
      evaluate_expression variables (Var name)
      = ([PStr ("Error: " ++ name ++ " is not defined")], Exit 1)) /\
  (forall (variables : gmap pykey pyval) name v,
      variables !! KStr name = Some v ->
      evaluate_expression variables (Var name) = ([], Return v)) /\
  (forall variables e out status,
      evaluate_expression variables e = (out, Exit status) ->
      (forall rest,
          run_statements variables (Statements [Print e; rest])
          = (out, Exit status)) /\
      (forall name rest,
          run_statements variables (Statements [Assign name e; rest])
          = (out, Exit status))) /\
  (forall filename ts files out status,
      process_file filename ts = (out, Exit status) ->
      main ((filename, ts) :: files) = (out, Exit status)) /\
  run_statements ∅
    (Statements [Print (Var "q");
                 Statements [Print (Num 1); Statements []]])
  = ([PStr "Error: q is not defined"], Exit 1).
Proof.
  repeat apply conj.
  - intros variables name H. unfold Var. simpl. rewrite H. reflexivity.
  - intros variables name v H. unfold Var. simpl. rewrite H. reflexivity.
  - intros variables e out status H. split.
    + intros rest.
      apply (proj1 (run_statements_fails _ _ _ _)).
      apply (proj1 (process_stmt_print_fails _ _ _)), H.
    + intros name rest.
      apply (proj1 (run_statements_fails _ _ _ _)).
      apply (proj1 (process_stmt_assign_fails _ _ _ _)), H.
  - intros filename ts files out status H. simpl. rewrite H. reflexivity.
  - reflexivity.
Qed.

Lemma C7_witness :
  evaluate_expression ∅ (Var "q")
  = ([PStr ("Error: " ++ "q" ++ " is not defined")], Exit 1).
Proof.
  apply (proj1 C7_undefined_variable_is_fatal ∅ "q"). reflexivity.
Defined.

(** C8, as stated, fails: the left operand is evaluated first, and when
    it is an unbound variable the run ends with the message of that
    variable and [sys.exit(1)], although the right operand evaluates
    to 0. *)
Lemma C8_counterexample :
  evaluate_expression ∅ (Num 0) = ([], Return (PInt 0)) /\
  evaluate_expression ∅ (BinOp "/" (Var "q") (Num 0))
  = ([PStr "Error: q is not defined"], Exit 1) /\
  evaluate_expression ∅ (BinOp "%" (Var "q") (Num 0))
  = ([PStr "Error: q is not defined"], Exit 1).
Proof. repeat split; reflexivity. Qed.

(** C8, amended. Division and modulo by zero are not guarded: when the
    left operand evaluates to an integer and the right operand to 0, the
    node raises [ZeroDivisionError] and prints nothing; the statement,
    the statement loop and the run of the file pass the exception on, and
    nothing catches it. *)
Theorem C8_division_by_zero_is_uncaught :
  forall variables op l r out_l out_r x,
    op = "/" \/ op = "%" ->
    evaluate_expression variables l = (out_l, Return (PInt x)) ->
    evaluate_expression variables r = (out_r, Return (PInt 0)) ->
    evaluate_expression variables (BinOp op l r)
    = ([], Raise ZeroDivisionError) /\
    process_stmt variables (Print (BinOp op l r))
    = ([], Raise ZeroDivisionError) /\
    (forall name,
        process_stmt variables (Assign name (BinOp op l r))
        = ([], Raise ZeroDivisionError)) /\
    (forall rest,
        run_statements variables (Statements [Print (BinOp op l r); rest])
        = ([], Raise ZeroDivisionError)) /\
    (forall name rest,
        run_statements variables
          (Statements [Assign name (BinOp op l r); rest])
        = ([], Raise ZeroDivisionError)).
Proof.
  intros variables op l r out_l out_r x Hop Hl Hr.
  pose proof (evaluate_expression_return _ _ _ _ Hl) as ->.
  pose proof (evaluate_expression_return _ _ _ _ Hr) as ->.
  assert (evaluate_expression variables (BinOp op l r)
          = ([], Raise ZeroDivisionError)) as H.
  { destruct Hop as [-> | ->].
    - now rewrite (evaluate_binop_ints variables "/" _ l r x 0 eq_refl Hl Hr).
    - now rewrite (evaluate_binop_ints variables "%" _ l r x 0 eq_refl Hl Hr). }
  pose proof (proj2 (process_stmt_print_fails variables _ []) _ H) as Hp.
  split; [exact H |]. split; [exact Hp |]. split; [| split].
  - intros name.
    apply (proj2 (process_stmt_assign_fails variables name _ [])), H.
  - intros rest. apply (proj2 (run_statements_fails _ _ _ _)), Hp.
  - intros name rest. apply (proj2 (run_statements_fails _ _ _ _)).
    apply (proj2 (process_stmt_assign_fails variables name _ [])), H.
Qed.

Lemma C8_witness :
  evaluate_expression ∅ (BinOp "%" (Num 5) (Num 0))
  = ([], Raise ZeroDivisionError).
Proof.
  refine (proj1 (C8_division_by_zero_is_uncaught
                   ∅ "%" (Num 5) (Num 0) [] [] 5 _ _ _));
    [right; reflexivity | reflexivity | reflexivity].
Defined.

(** C10. [truncate_number] maps every integer into [-2^63, 2^63) and is
    idempotent; hence whatever a [binop] or [unop] node returns is an
    integer that [truncate_number] leaves unchanged. *)
Theorem C10_truncation_is_idempotent :
  (forall n : Z,
      - 2 ^ 63 <= truncate_number n < 2 ^ 63 /\
      truncate_number (truncate_number n) = truncate_number n) /\
  (forall variables opc v ks out w,
      opc = "binop" \/ opc = "unop" ->
      evaluate_expression variables (PNode (mkNode opc v ks))
      = (out, Return w) ->
      exists z, w = PInt z /\ truncate_number z = z).
Proof.
  split.
  - intros n. split; [apply truncate_number_range | apply truncate_number_idem].
  - intros variables opc v ks out w [-> | ->] H.
    + apply evaluate_binop_return in H
        as (f & l & r & ks' & x & y & exact & _ & _ & _ & _ & _ & ->).
      eexists; split; [reflexivity | apply truncate_number_idem].
    + apply evaluate_unop_return in H
        as (f & e & ks' & x & exact & _ & _ & _ & _ & ->).
      eexists; split; [reflexivity | apply truncate_number_idem].
Qed.

Lemma C10_witness :
  exists z, PInt (-6) = PInt z /\ truncate_number z = z.
Proof.
  refine (proj2 C10_truncation_is_idempotent
            ∅ "unop" (PStr "~") [Num 5] [] (PInt (-6)) _ _);
    [right; reflexivity | reflexivity].
Defined.

(** * The claims about the parser *)

(** The tests of [parser.py] hold of the model. *)
Example test_print :
  parse [tok PRINT; tok LPAREN; ident "x"; tok RPAREN; tok SEMICOLON]
  = Return (Statements [Print (Var "x"); Statements []]).
Proof. reflexivity. Qed.

Example test_unary :
  parse [tok PRINT; tok LPAREN; tok TILDE; number 3; tok MINUS; tok MINUS;
         number 4; tok RPAREN; tok SEMICOLON]
  = Return (Statements
              [Print (BinOp "-" (UnOp "~" (Num 3)) (UnOp "-" (Num 4)));
               Statements []]).
Proof. reflexivity. Qed.

Example test_parens :
  parse [ident "s"; tok EQ; tok LPAREN; ident "x"; tok PLUS; tok LPAREN;
         ident "y"; tok RPAREN; tok RPAREN; tok SEMICOLON]
  = Return (Statements
              [Assign "s" (BinOp "+" (Var "x") (Var "y")); Statements []]).
Proof. reflexivity. Qed.

Example test_precedence :
  parse [ident "s"; tok EQ; ident "x"; tok PLUS; ident "y"; tok STAR;
         ident "z"; tok SEMICOLON]
  = Return (Statements
              [Assign "s" (BinOp "+" (Var "x") (BinOp "*" (Var "y") (Var "z")));
               Statements []]).
Proof. reflexivity. Qed.

Example test_syntax_error :
  parse [ident "s"; tok EQ; ident "x"; tok PLUS; tok PLUS; ident "x";
         tok SEMICOLON]
  = Raise (SyntaxError PLUS).
Proof. reflexivity. Qed.

(** C2, as stated, fails: [a + b | c;] alone is not a statement of the
    grammar, and the parser stops at [+] with a syntax error. *)
Lemma C2_counterexample :
  parse [ident "a"; tok PLUS; ident "b"; tok BAR; ident "c"; tok SEMICOLON]
  = Raise (SyntaxError PLUS).
Proof. reflexivity. Qed.

(** C2, amended. The binary operators are left-associative with levels
    [|] < [^] < [&] < [<<], [>>] < [+], [-] < [*], [/], [%], and the
    parser follows them: in an assignment or a [print], of two
    consecutive binary operators the second takes the middle operand when
    its level is higher, the first otherwise.  So [s = a + b | c;] gives
    the expression [BinOp(|, BinOp(+, a, b), c)]. *)
Theorem C2_bitwise_below_arithmetic :
  map (fun t => (t, token_prec t)) binary_tokens
  = [ (PLUS, (LeftAssoc, 5)); (MINUS, (LeftAssoc, 5));
      (STAR, (LeftAssoc, 6)); (SLASH, (LeftAssoc, 6));
      (PERCENT, (LeftAssoc, 6)); (AMP, (LeftAssoc, 3));
      (BAR, (LeftAssoc, 1)); (CARET, (LeftAssoc, 2));
      (LTLT, (LeftAssoc, 4)); (GTGT, (LeftAssoc, 4)) ]%nat /\
  (forall o1 o2 s a b c,
      In o1 binary_tokens -> In o2 binary_tokens ->
      parse [ident s; tok EQ; ident a; tok o1; ident b; tok o2; ident c;
             tok SEMICOLON]
      = Return (Statements
                  [Assign s
                     (if (level o1 <? level o2)%nat
                      then BinOp (lexeme o1) (Var a)
                                 (BinOp (lexeme o2) (Var b) (Var c))
                      else BinOp (lexeme o2)
                                 (BinOp (lexeme o1) (Var a) (Var b)) (Var c));
                   Statements []])) /\
  (forall s a b c,
      parse [ident s; tok EQ; ident a; tok PLUS; ident b; tok BAR; ident c;
             tok SEMICOLON]
      = Return (Statements
                  [Assign s (BinOp "|" (BinOp "+" (Var a) (Var b)) (Var c));
                   Statements []])) /\
  (forall a b c,
      parse [tok PRINT; tok LPAREN; ident a; tok PLUS; ident b; tok BAR;
             ident c; tok RPAREN; tok SEMICOLON]
      = Return (Statements
                  [Print (BinOp "|" (BinOp "+" (Var a) (Var b)) (Var c));
                   Statements []])).
Proof.
  split; [reflexivity |]. split; [| split; reflexivity].
  intros o1 o2 s a b c H1 H2. simpl in H1, H2.
  repeat (destruct H1 as [<- | H1]); try contradiction;
    repeat (destruct H2 as [<- | H2]); try contradiction; reflexivity.
Qed.

Lemma C2_witness :
  parse [ident "s"; tok EQ; ident "a"; tok BAR; ident "b"; tok PLUS;
         ident "c"; tok SEMICOLON]
  = Return (Statements
              [Assign "s"
                 (if (level BAR <? level PLUS)%nat
                  then BinOp (lexeme BAR) (Var "a")
                             (BinOp (lexeme PLUS) (Var "b") (Var "c"))
                  else BinOp (lexeme PLUS)
                             (BinOp (lexeme BAR) (Var "a") (Var "b"))
                             (Var "c"));
               Statements []]).
Proof.
  refine (proj1 (proj2 C2_bitwise_below_arithmetic)
            BAR PLUS "s" "a" "b" "c" _ _); simpl; tauto.
Defined.

(** C6, as stated, fails: [- w - - w;] alone is not a statement of the
    grammar, and the parser stops at the first [-] with a syntax error. *)
Lemma C6_counterexample :
  parse [tok MINUS; ident "w"; tok MINUS; tok MINUS; ident "w"; tok SEMICOLON]
  = Raise (SyntaxError MINUS).
Proof. reflexivity. Qed.

(** C6, amended. Unary minus has the level of [UMINUS], above every
    binary operator and below [~]; a unary operator applies to the
    operand that follows it and not to a binary expression.  So
    [s = - w - - w;] gives [BinOp(-, UnOp(-, w), UnOp(-, w))]. *)
Theorem C6_unary_minus_binds_tighter :
  (forall o, In o binary_tokens -> (level o < level UMINUS)%nat) /\
  (level UMINUS < level TILDE)%nat /\
  prod_prec (prod_at 19) = token_prec UMINUS /\
  prod_prec (prod_at 21) = token_prec TILDE /\
  (forall u o s a b,
      In u [MINUS; TILDE] -> In o binary_tokens ->
      parse [ident s; tok EQ; tok u; ident a; tok o; ident b; tok SEMICOLON]
      = Return (Statements
                  [Assign s (BinOp (lexeme o) (UnOp (lexeme u) (Var a)) (Var b));
                   Statements []])) /\
  (forall s a,
      parse [ident s; tok EQ; tok MINUS; tok TILDE; ident a; tok SEMICOLON]
      = Return (Statements
                  [Assign s (UnOp "-" (UnOp "~" (Var a))); Statements []]) /\
      parse [ident s; tok EQ; tok TILDE; tok MINUS; ident a; tok SEMICOLON]
      = Return (Statements
                  [Assign s (UnOp "~" (UnOp "-" (Var a))); Statements []])) /\
  (forall s w,
      parse [ident s; tok EQ; tok MINUS; ident w; tok MINUS; tok MINUS;
             ident w; tok SEMICOLON]
      = Return (Statements
                  [Assign s (BinOp "-" (UnOp "-" (Var w)) (UnOp "-" (Var w)));
                   Statements []])) /\
  (forall w,
      parse [tok PRINT; tok LPAREN; tok MINUS; ident w; tok MINUS; tok MINUS;
             ident w; tok RPAREN; tok SEMICOLON]
      = Return (Statements
                  [Print (BinOp "-" (UnOp "-" (Var w)) (UnOp "-" (Var w)));
                   Statements []])).
Proof.
  repeat apply conj; try reflexivity.
  - intros o H. simpl in H.
    repeat (destruct H as [<- | H]); try contradiction; vm_compute; lia.
  - vm_compute. lia.
  - intros u o s a b Hu Ho. simpl in Hu, Ho.
    repeat (destruct Hu as [<- | Hu]); try contradiction;
      repeat (destruct Ho as [<- | Ho]); try contradiction; reflexivity.
  - intros s a. split; reflexivity.
Qed.

Lemma C6_witness :
  parse [ident "s"; tok EQ; tok MINUS; ident "a"; tok STAR; ident "b";
         tok SEMICOLON]
  = Return (Statements
              [Assign "s" (BinOp (lexeme STAR) (UnOp (lexeme MINUS) (Var "a"))
                                 (Var "b"));
               Statements []]).
Proof.
  refine (proj1 (proj2 (proj2 (proj2 (proj2 C6_unary_minus_binds_tighter))))
            MINUS STAR "s" "a" "b" _ _); simpl; tauto.
Defined.

(** ** The nodes of a parsed program *)

Lemma expr_nodes e :
  is_expr e ->
  forall n, In n (nodes_of e) ->
            In (opcode n) ["var"; "num"; "binop"; "unop"].
Proof.
  induction 1 as [name | z | op l r Hop Hl IHl Hr IHr | op e Hop He IHe];
    intros n Hn; simpl in Hn.
  - destruct Hn as [<- | []]. simpl. tauto.
  - destruct Hn as [<- | []]. simpl. tauto.
  - destruct Hn as [<- | Hn]; [simpl; tauto |].
    rewrite app_nil_r in Hn. apply in_app_or in Hn as [Hn | Hn]; auto.
  - destruct Hn as [<- | Hn]; [simpl; tauto |].
    rewrite app_nil_r in Hn. auto.
Qed.

Lemma expr_nodes_layout e :
  is_expr e -> forall n, In n (nodes_of e) -> statement_layout n.
Proof.
  intros He n Hn. pose proof (expr_nodes e He n Hn) as Hop.
  split; intros Heq; rewrite Heq in Hop; simpl in Hop;
    repeat (destruct Hop as [Hop | Hop]; [discriminate Hop |]);
    destruct Hop.
Qed.

Lemma stmt_nodes_layout stmt :
  is_stmt stmt -> forall n, In n (nodes_of stmt) -> statement_layout n.
Proof.
  intros [name e He | e He] n Hn; simpl in Hn.
  - destruct Hn as [<- | Hn].
    + split; simpl; [discriminate |]. intros _. eauto.
    + rewrite app_nil_r in Hn. now apply (expr_nodes_layout e).
  - destruct Hn as [<- | Hn].
    + split; simpl; [auto | discriminate].
    + rewrite app_nil_r in Hn. now apply (expr_nodes_layout e).
Qed.

Lemma program_nodes_layout prog :
  is_program prog -> forall n, In n (nodes_of prog) -> statement_layout n.
Proof.
  induction 1 as [| stmt rest Hs Hr IH]; intros n Hn; simpl in Hn.
  - destruct Hn as [<- | []]. split; simpl; discriminate.
  - destruct Hn as [<- | Hn]; [split; simpl; discriminate |].
    rewrite app_nil_r in Hn. apply in_app_or in Hn as [Hn | Hn]; auto.
    now apply (stmt_nodes_layout stmt).
Qed.

(** C5, as stated, fails: the [print] node built for [print(x);] has the
    expression as its payload and no child, and the [assign] node built
    for [s = x;] has ["="] as its payload and two children. *)
Lemma C5_counterexample :
  (exists n,
      parse [tok PRINT; tok LPAREN; ident "x"; tok RPAREN; tok SEMICOLON]
      = Return (Statements [PNode n; Statements []]) /\
      opcode n = "print" /\ value n = Var "x" /\ kids n = [] /\
      ~ (value n = PNone /\ length (kids n) = 1%nat)) /\
  (exists n,
      parse [ident "s"; tok EQ; ident "x"; tok SEMICOLON]
      = Return (Statements [PNode n; Statements []]) /\
      opcode n = "assign" /\ value n = PStr "=" /\
      kids n = [PStr "s"; Var "x"] /\
      ~ (value n = PStr "s" /\ length (kids n) = 1%nat)).
Proof.
  split.
  - exists (mkNode "print" (Var "x") []).
    repeat split; try reflexivity. intros [H _]. discriminate H.
  - exists (mkNode "assign" (PStr "=") [PStr "s"; Var "x"]).
    repeat split; try reflexivity. intros [H _]. discriminate H.
Qed.

(** C5, amended. [p_stmt_print] builds a node whose payload is the
    printed expression and which has no child; [p_stmt_assign] builds a
    node whose payload is ["="] and whose two children are the target
    name and the value expression.  On a scanned token stream every
    [print] and [assign] node of the tree that [parse] returns has that
    layout, and the tree is a chain of such statements. *)
Theorem C5_statement_node_layout :
  (forall p,
      p_stmt_print p = PNode (mkNode "print" (sub p 3) []) /\
      p_stmt_assign p = PNode (mkNode "assign" (PStr "=") [sub p 1; sub p 3])) /\
  (forall ts tree,
      Forall scanned ts ->
      parse ts = Return tree ->
      (tree = PNone \/ is_program tree) /\
      forall n, In n (nodes_of tree) -> statement_layout n) /\
  (forall s x,
      parse [ident s; tok EQ; ident x; tok SEMICOLON]
      = Return (Statements
                  [PNode (mkNode "assign" (PStr "=") [PStr s; Var x]);
                   Statements []]) /\
      parse [tok PRINT; tok LPAREN; ident x; tok RPAREN; tok SEMICOLON]
      = Return (Statements
                  [PNode (mkNode "print" (Var x) []); Statements []])).
Proof.
  split; [intros p; split; reflexivity |].
  split; [| intros s x; split; reflexivity].
  intros ts tree Hts Hparse.
  destruct (parse_result ts Hts) as [(v & Hv & Hprog) | [Hnone | (t & _ & Ht)]].
  - rewrite Hparse in Hv. injection Hv as <-.
    split; [now right |]. now apply program_nodes_layout.
  - rewrite Hparse in Hnone. injection Hnone as ->.
    split; [now left |]. intros n [].
  - rewrite Hparse in Ht. discriminate Ht.
Qed.

Lemma C5_witness :
  (Statements [Print (Num 7); Statements []] = PNone \/
   is_program (Statements [Print (Num 7); Statements []])) /\
  forall n,
    In n (nodes_of (Statements [Print (Num 7); Statements []])) ->
    statement_layout n.
Proof.
  apply (proj1 (proj2 C5_statement_node_layout)
           [tok PRINT; tok LPAREN; number 7; tok RPAREN; tok SEMICOLON]).
  - repeat first [apply List.Forall_cons | apply List.Forall_nil];
      unfold scanned; simpl; eauto.
  - reflexivity.
Defined.

(** * The claim about the statement loop *)

Lemma bind_ret {A B} (a : A) (f : A -> io B) : bind ([], Return a) f = f a.
Proof. unfold bind. destruct (f a) as [out r]. reflexivity. Qed.

Lemma bind_print {A B} v (a : A) (f : A -> io B) out r :
  f a = (out, r) -> bind ([v], Return a) f = (v :: out, r).
Proof. intros H. unfold bind. rewrite H. reflexivity. Qed.

Lemma run_chain_cons variables stmt stmts :
  run_statements variables (chain (stmt :: stmts))
  = let* variables' := process_stmt variables stmt in
    run_statements variables' (chain stmts).
Proof. reflexivity. Qed.

Lemma evaluate_bound variables name v :
  variables !! KStr name = Some v ->
  evaluate_expression variables (Var name) = ([], Return v).
Proof. intros H. unfold Var. simpl. rewrite H. reflexivity. Qed.

(** The run of [x = 1; print(x); x = 2; print(x);] from any dictionary. *)
Lemma run_example variables :
  run_statements variables
    (chain [Assign "x" (Num 1); Print (Var "x");
            Assign "x" (Num 2); Print (Var "x")])
  = ([PInt 1; PInt 2],
     Return (<[KStr "x" := PInt 2]> (<[KStr "x" := PInt 1]> variables))).
Proof.
  rewrite run_chain_cons.
  rewrite (process_stmt_assign variables "x" (Num 1) [] (PInt 1) eq_refl).
  rewrite bind_ret.
  rewrite run_chain_cons.
  rewrite (process_stmt_print _ (Var "x") [] (PInt 1)
             (evaluate_bound _ "x" _ (lookup_insert_eq _ _ _))).
  apply bind_print.
  rewrite run_chain_cons.
  rewrite (process_stmt_assign _ "x" (Num 2) [] (PInt 2) eq_refl).
  rewrite bind_ret.
  rewrite run_chain_cons.
  rewrite (process_stmt_print _ (Var "x") [] (PInt 2)
             (evaluate_bound _ "x" _ (lookup_insert_eq _ _ _))).
  apply bind_print. reflexivity.
Qed.

(** C9. The loop runs the statements of the chain in order, each in the
    dictionary left by the ones before it; a [print] whose expression
    evaluates to an integer writes exactly one line, the signed decimal
    numeral of that integer, and an assignment writes nothing.  The
    program [x = 1; print(x); x = 2; print(x);] writes the line [1], then
    the line [2]. *)
Theorem C9_statements_run_in_order :
  (forall variables,
      run_statements variables (chain []) = ([], Return variables)) /\
  (forall variables stmt stmts,
      run_statements variables (chain (stmt :: stmts))
      = let* variables' := process_stmt variables stmt in
        run_statements variables' (chain stmts)) /\
  (forall variables e out z,
      evaluate_expression variables e = (out, Return (PInt z)) ->
      process_stmt variables (Print e) = ([PInt z], Return variables) /\
      line_of (PInt z) = Some (str_int z)) /\
  (forall variables name e out v,
      evaluate_expression variables e = (out, Return v) ->
      process_stmt variables (Assign name e)
      = ([], Return (<[KStr name := v]> variables))) /\
  map str_int [0; 1; 2; -1; 1234567890; - 2 ^ 63]
  = ["0"; "1"; "2"; "-1"; "1234567890"; "-9223372036854775808"] /\
  parse [ident "x"; tok EQ; number 1; tok SEMICOLON;
         tok PRINT; tok LPAREN; ident "x"; tok RPAREN; tok SEMICOLON;
         ident "x"; tok EQ; number 2; tok SEMICOLON;
         tok PRINT; tok LPAREN; ident "x"; tok RPAREN; tok SEMICOLON]
  = Return (chain [Assign "x" (Num 1); Print (Var "x");
                   Assign "x" (Num 2); Print (Var "x")]) /\
  (forall variables,
      run_statements variables
        (chain [Assign "x" (Num 1); Print (Var "x");
                Assign "x" (Num 2); Print (Var "x")])
      = ([PInt 1; PInt 2],
         Return (<[KStr "x" := PInt 2]> (<[KStr "x" := PInt 1]> variables)))) /\
  map line_of [PInt 1; PInt 2] = [Some "1"; Some "2"] /\
  (forall filename,
      process_file filename
        [ident "x"; tok EQ; number 1; tok SEMICOLON;
         tok PRINT; tok LPAREN; ident "x"; tok RPAREN; tok SEMICOLON;
         ident "x"; tok EQ; number 2; tok SEMICOLON;
         tok PRINT; tok LPAREN; ident "x"; tok RPAREN; tok SEMICOLON]
      = ([PStr ("[[ processing " ++ filename ++ " ]]"); PInt 1; PInt 2],
         Return (<[KStr "x" := PInt 2]> (<[KStr "x" := PInt 1]> ∅)))).
Proof.
  repeat apply conj.
  - reflexivity.
  - reflexivity.
  - intros variables e out z H.
    split; [exact (process_stmt_print _ _ _ _ H) | reflexivity].
  - intros variables name e out v H. exact (process_stmt_assign _ _ _ _ _ H).
  - vm_compute. reflexivity.
  - reflexivity.
  - exact run_example.
  - vm_compute. reflexivity.
  - intros filename. unfold process_file.
    apply bind_print.
    assert (parse [ident "x"; tok EQ; number 1; tok SEMICOLON;
                   tok PRINT; tok LPAREN; ident "x"; tok RPAREN; tok SEMICOLON;
                   ident "x"; tok EQ; number 2; tok SEMICOLON;
                   tok PRINT; tok LPAREN; ident "x"; tok RPAREN; tok SEMICOLON]
            = Return (chain [Assign "x" (Num 1); Print (Var "x");
                             Assign "x" (Num 2); Print (Var "x")])) as ->
        by reflexivity.
    unfold lift. rewrite bind_ret. apply run_example.
Qed.

Lemma C9_witness :
  process_stmt ∅ (Print (BinOp "-" (Num 3) (Num 5))) = ([PInt (-2)], Return ∅)
  /\ line_of (PInt (-2)) = Some (str_int (-2)).
Proof.
  apply (proj1 (proj2 (proj2 C9_statements_run_in_order))
           ∅ (BinOp "-" (Num 3) (Num 5)) [] (-2)).
  reflexivity.
Defined.
